(** * react-slider: the drag-to-value mapper and its shared value store

    A shallow embedding of [Slider.jsx] (the quantised variant that reads
    the shared context, and the first variant without a store),
    [SliderContext.jsx] and [Header.jsx], with the properties that the
    specification states about them.

    JavaScript numbers are rationals extended with [Infinity],
    [-Infinity] and [NaN]; the two zeros are identified (a zero divisor
    is read as [+0]).  The slider is embedded twice over these numbers:
    with the exact operators of [JS], which do not round, and, in
    [Slider], over any implementation of the four operators, of which
    [B64] is binary64 (round to nearest, ties to even, with subnormals
    and overflow).  Properties that rest on order, sign or structure
    only are proved over the exact operators; those that rounding
    decides are proved in binary64. *)

From Stdlib Require Import QArith Qround Qminmax Qpower ZArith List Sorted Bool Lia Lqa.
Import ListNotations.
Local Open Scope Q_scope.

(** ** JavaScript numbers *)

Module JS.

Inductive num : Type :=
| Fin (q : Q)
| PInf
| NInf
| NaN.

(** The infinity, or [NaN], whose sign is the comparison of a finite
    number with zero. *)
Definition signed_inf (c : comparison) : num :=
  match c with
  | Eq => NaN
  | Gt => PInf
  | Lt => NInf
  end.

Definition neg (a : num) : num :=
  match a with
  | Fin q => Fin (- q)
  | PInf => NInf
  | NInf => PInf
  | NaN => NaN
  end.

(** [a + b] *)
Definition add (a b : num) : num :=
  match a, b with
  | NaN, _ | _, NaN => NaN
  | Fin x, Fin y => Fin (x + y)
  | PInf, NInf | NInf, PInf => NaN
  | PInf, _ | _, PInf => PInf
  | NInf, _ | _, NInf => NInf
  end.

(** [a - b] *)
Definition sub (a b : num) : num := add a (neg b).

(** [a * b] *)
Definition mul (a b : num) : num :=
  match a, b with
  | NaN, _ | _, NaN => NaN
  | Fin x, Fin y => Fin (x * y)
  | Fin x, PInf | PInf, Fin x => signed_inf (x ?= 0)
  | Fin x, NInf | NInf, Fin x => signed_inf (0 ?= x)
  | PInf, PInf | NInf, NInf => PInf
  | PInf, NInf | NInf, PInf => NInf
  end.

(** [a / b] *)
Definition div (a b : num) : num :=
  match a, b with
  | NaN, _ | _, NaN => NaN
  | Fin x, Fin y => if Qeq_bool y 0 then signed_inf (x ?= 0) else Fin (x / y)
  | Fin _, (PInf | NInf) => Fin 0
  | PInf, Fin y => if Qle_bool 0 y then PInf else NInf
  | NInf, Fin y => if Qle_bool 0 y then NInf else PInf
  | (PInf | NInf), (PInf | NInf) => NaN
  end.

(** [Math.min(a, b)] *)
Definition min (a b : num) : num :=
  match a, b with
  | NaN, _ | _, NaN => NaN
  | NInf, _ | _, NInf => NInf
  | PInf, c | c, PInf => c
  | Fin x, Fin y => Fin (Qmin x y)
  end.

(** [Math.max(a, b)] *)
Definition max (a b : num) : num :=
  match a, b with
  | NaN, _ | _, NaN => NaN
  | PInf, _ | _, PInf => PInf
  | NInf, c | c, NInf => c
  | Fin x, Fin y => Fin (Qmax x y)
  end.

(** Nearest integer, a tie going up, as [Math.round] has it. *)
Definition Qround (q : Q) : Z := Qfloor (q + (1 # 2)).

(** [Math.round(a)] *)
Definition round (a : num) : num :=
  match a with
  | Fin q => Fin (inject_Z (Qround q))
  | _ => a
  end.

(** [a === b] on two numbers. *)
Definition strict_eq (a b : num) : bool :=
  match a, b with
  | Fin x, Fin y => Qeq_bool x y
  | PInf, PInf | NInf, NInf => true
  | _, _ => false
  end.

(** A property of an object that may be absent reads as [undefined]:
    [None]. *)
Definition val : Type := option num.

(** An absent operand of an arithmetic operator is converted to [NaN]. *)
Definition to_num (v : val) : num :=
  match v with
  | Some a => a
  | None => NaN
  end.

(** [v !== b] where [b] is a number: [undefined] differs from every
    number. *)
Definition strict_neq (v : val) (b : num) : bool :=
  match v with
  | Some a => negb (strict_eq a b)
  | None => true
  end.

End JS.

Import JS.

(** ** SliderContext.jsx: the shared value store *)

(** The two state variables of [SliderProvider]. *)
Record SliderState : Type := mkState {
  maxValue : num;
  value : num
}.

(** [useState(init)] on the first rendering. *)
Definition useState (init : num) : num := init.

(** The state setters that the two [useState] calls return. *)
Definition setMaxValue (next : num) (s : SliderState) : SliderState :=
  {| maxValue := next; value := value s |}.

Definition setValue (next : num) (s : SliderState) : SliderState :=
  {| maxValue := maxValue s; value := next |}.

(** The object handed to [SliderContext.Provider]: what the consumers can
    read and call. *)
Record ContextValue : Type := mkContext {
  ctx_maxValue : num;
  ctx_value : num;
  ctx_setValue : num -> SliderState -> SliderState
}.

(** State of the provider on its first rendering. *)
Definition SliderProvider : SliderState :=
  {| maxValue := useState (Fin 100); value := useState (Fin 50) |}.

(** The context value of a rendering of the provider in state [s];
    [setMaxValue] is not part of it. *)
Definition provide (s : SliderState) : ContextValue :=
  {| ctx_maxValue := maxValue s; ctx_value := value s; ctx_setValue := setValue |}.

(** ** Slider.jsx: the drag-to-value mapper *)

(** [dragData.current]; a field is [None] while the object has no such
    property.  The fields are [left], [max] and [offset] in the source. *)
Record DragData : Type := mkDragData {
  dd_left : val;
  dd_max : val;
  dd_offset : val
}.

(** A [drag] closure registered on [document.body]: its identity and the
    [maxValue] of the rendering that created it. *)
Record Listener : Type := mkListener {
  lid : nat;
  captured_maxValue : num
}.

(** A call of one of the two setters. *)
Inductive Write : Type :=
| SetValue (v : num)
| SetLeft (l : num).

(** One mounted slider with its provider and the listeners of
    [document.body]. *)
Record World : Type := mkWorld {
  store : SliderState;          (* state of SliderProvider *)
  left_state : num;             (* the [left] state variable of Slider *)
  dragData : DragData;          (* dragData.current *)
  mousemove : list Listener;    (* "mousemove" listeners, in order of registration *)
  mouseup : list nat;           (* one-shot "mouseup" listeners: the [drop] closures *)
  fresh : nat;                  (* identity of the next closure *)
  writes : list Write           (* the setter calls made so far, oldest first *)
}.

(** [setValue(v)] as called from the slider. *)
Definition call_setValue (v : num) (w : World) : World :=
  {| store := ctx_setValue (provide (store w)) v (store w);
     left_state := left_state w;
     dragData := dragData w;
     mousemove := mousemove w;
     mouseup := mouseup w;
     fresh := fresh w;
     writes := writes w ++ [SetValue v] |}.

(** [setLeft(l)] *)
Definition setLeft (l : num) (w : World) : World :=
  {| store := store w;
     left_state := l;
     dragData := dragData w;
     mousemove := mousemove w;
     mouseup := mouseup w;
     fresh := fresh w;
     writes := writes w ++ [SetLeft l] |}.

Definition set_dragData (d : DragData) (w : World) : World :=
  {| store := store w;
     left_state := left_state w;
     dragData := d;
     mousemove := mousemove w;
     mouseup := mouseup w;
     fresh := fresh w;
     writes := writes w |}.

(** [drag], the "mousemove" listener, in a closure that captured
    [maxValue]. *)
Definition drag (maxValue : num) (pageX : Q) (w : World) : World :=
  let d := dragData w in
  let next :=
    JS.max (Fin 0)
           (JS.min (add (Fin pageX) (to_num (dd_offset d))) (to_num (dd_max d))) in
  if strict_neq (dd_left d) next then
    (* Calculate the current value *)
    let value := round (mul (div next (to_num (dd_max d))) maxValue) in
    let w := call_setValue value w in
    (* Snap the thumb to the current value *)
    let next := div (mul (to_num (dd_max d)) value) maxValue in
    let w := set_dragData
               {| dd_left := Some next;
                  dd_max := dd_max d;
                  dd_offset := dd_offset d |} w in
    setLeft next w
  else w.

(** [drop], the "mouseup" listener of the closure [id]: it removes the
    [drag] listener of the same closure. *)
Definition drop (id : nat) (w : World) : World :=
  {| store := store w;
     left_state := left_state w;
     dragData := dragData w;
     mousemove := filter (fun l => negb (Nat.eqb (lid l) id)) (mousemove w);
     mouseup := mouseup w;
     fresh := fresh w;
     writes := writes w |}.

(** [startDrag], the "mousedown" handler of the thumb. *)
Definition startDrag (pageX : Q) (w : World) : World :=
  let d := dragData w in
  let d := {| dd_left := dd_left d;
              dd_max := dd_max d;
              dd_offset := Some (sub (to_num (dd_left d)) (Fin pageX)) |} in
  {| store := store w;
     left_state := left_state w;
     dragData := d;
     mousemove := mousemove w
                  ++ [{| lid := fresh w; captured_maxValue := maxValue (store w) |}];
     mouseup := mouseup w ++ [fresh w];
     fresh := S (fresh w);
     writes := writes w |}.

(** [initialize], run once after the first rendering; [sliderWidth] is
    [slider.current.clientWidth] and [width] the width of the thumb's
    bounding rectangle. *)
Definition initialize (sliderWidth width : Q) (w : World) : World :=
  let max := sub (Fin sliderWidth) (Fin width) in
  let left := div (mul max (value (store w))) (maxValue (store w)) in
  let w := set_dragData
             {| dd_left := Some left; dd_max := Some max; dd_offset := None |} w in
  setLeft left w.

(** The slider as first rendered inside a provider in state [s]:
    [useState(0)], [useRef({})], no listener. *)
Definition first_render (s : SliderState) : World :=
  {| store := s;
     left_state := useState (Fin 0);
     dragData := {| dd_left := None; dd_max := None; dd_offset := None |};
     mousemove := [];
     mouseup := [];
     fresh := O;
     writes := [] |}.

(** Mounting: the first rendering, then the effect [initialize]. *)
Definition mount (s : SliderState) (sliderWidth width : Q) : World :=
  initialize sliderWidth width (first_render s).

(** The application of [App.js]: the slider inside [SliderProvider]. *)
Definition App (sliderWidth width : Q) : World :=
  mount SliderProvider sliderWidth width.

(** ** Pointer events *)

Inductive Event : Type :=
| MouseDown (pageX : Q)    (* on the thumb *)
| MouseMove (pageX : Q)    (* anywhere on the body *)
| MouseUp.

(** Delivery of one event: every listener registered for it runs, in
    registration order; the one-shot listeners are gone afterwards. *)
Definition dispatch (e : Event) (w : World) : World :=
  match e with
  | MouseDown x => startDrag x w
  | MouseMove x =>
      fold_left (fun w l => drag (captured_maxValue l) x w) (mousemove w) w
  | MouseUp =>
      let w' := fold_left (fun w id => drop id w) (mouseup w) w in
      {| store := store w';
         left_state := left_state w';
         dragData := dragData w';
         mousemove := mousemove w';
         mouseup := [];
         fresh := fresh w';
         writes := writes w' |}
  end.

Definition run (es : list Event) (w : World) : World :=
  fold_left (fun w e => dispatch e w) es w.

(** The values passed to [setValue], oldest first. *)
Fixpoint emitted (ws : list Write) : list num :=
  match ws with
  | [] => []
  | SetValue v :: ws => v :: emitted ws
  | SetLeft _ :: ws => emitted ws
  end.

(** The offsets passed to [setLeft], oldest first. *)
Fixpoint displayed (ws : list Write) : list num :=
  match ws with
  | [] => []
  | SetValue _ :: ws => displayed ws
  | SetLeft l :: ws => l :: displayed ws
  end.

(** The state after an update by [drag]: [v] written to the store, and
    [next] recorded in [dragData.current.left] and displayed. *)
Definition updated (w : World) (v next : num) : World :=
  {| store := {| maxValue := maxValue (store w); value := v |};
     left_state := next;
     dragData := {| dd_left := Some next;
                    dd_max := dd_max (dragData w);
                    dd_offset := dd_offset (dragData w) |};
     mousemove := mousemove w;
     mouseup := mouseup w;
     fresh := fresh w;
     writes := writes w ++ [SetValue v; SetLeft next] |}.

(** The clamped offset of a candidate, and the value of the pointer
    position [x] under the pointer offset [o], as formulas over the
    rationals. *)
Definition clamp (m c : Q) : Q := Qmax 0 (Qmin c m).

Definition value_at (M m o x : Q) : Z := Qround (clamp m (x + o) / m * M).

(** ** Definitions for the statements *)

(** A finite number. *)
Definition finite (n : num) : Prop := exists q, n = Fin q.

(** The finite number [q]. *)
Definition is_num (q : Q) (n : num) : Prop := exists q', n = Fin q' /\ q' == q.

(** A number between 0 and [M]. *)
Definition in_range (M : Q) (n : num) : Prop := exists v, n = Fin v /\ 0 <= v <= M.

(** A finite number with the property [Vok]. *)
Definition ok_value (Vok : Q -> Prop) (n : num) : Prop := exists v, n = Fin v /\ Vok v.

(** The value and the snapped offset that a move event at [x] produces
    when the pointer offset is [o], the travel [m] and [maxValue] is
    [M]. *)
Definition V (M m o x : Q) : num := Fin (inject_Z (value_at M m o x)).
Definition L (M m o x : Q) : num := Fin (m * inject_Z (value_at M m o x) / M).

(** [k] updates in a row. *)
Definition updates (M m : Q) (k : nat) (o x : Q) (w : World) : World :=
  Nat.iter k (fun w => updated w (V M m o x) (L M m o x)) w.

(** The recorded offset is the clamped offset of a move event at [x]. *)
Definition at_clamp (m o x : Q) (w : World) : Prop :=
  exists l, dd_left (dragData w) = Some (Fin l) /\ l == clamp m (x + o).

(** The [drag] closures that survive the [drop] closures [ids]. *)
Definition remaining (ids : list nat) (cs : list Listener) : list Listener :=
  fold_left (fun cs id => filter (fun c => negb (Nat.eqb (lid c) id)) cs) ids cs.

(** Number of pointer-down events since the last pointer-up. *)
Definition pending (es : list Event) : nat :=
  fold_left (fun n e =>
               match e with
               | MouseDown _ => S n
               | MouseMove _ => n
               | MouseUp => O
               end) es O.

(** Every registered [drag] closure has its [drop] closure waiting. *)
Definition paired (w : World) : Prop :=
  forall c, In c (mousemove w) -> In (lid c) (mouseup w).

(** The invariant of a mounted slider whose store has the [maxValue]
    [M] and whose thumb has the travel [m]: the numbers are finite, the
    thumb is where the stored value puts it, and the stored value and
    every emitted one have the property [Vok]; a pointer offset is
    recorded while a listener is registered, and the listeners captured
    [M]. *)
Record Inv (M m : Q) (Vok : Q -> Prop) (w : World) : Prop := {
  inv_maxValue : maxValue (store w) = Fin M;
  inv_max : dd_max (dragData w) = Some (Fin m);
  inv_sync : exists v l,
      value (store w) = Fin v /\ Vok v /\
      dd_left (dragData w) = Some (Fin l) /\ left_state w = Fin l /\
      l == m * v / M;
  inv_offset : (exists o, dd_offset (dragData w) = Some (Fin o)) \/ mousemove w = [];
  inv_closures : Forall (fun c => captured_maxValue c = Fin M) (mousemove w);
  inv_drops : paired w;
  inv_emitted : Forall (ok_value Vok) (emitted (writes w));
  inv_displayed : Forall finite (displayed (writes w))
}.

(** The thumb is where the store puts it, for numbers of any kind: the
    displayed offset is the recorded one and is
    [(max * value) / maxValue], and every registered [drag] closure
    captured the [maxValue] of the store. *)
Record Synced (w : World) : Prop := {
  synced_left : dd_left (dragData w) = Some (left_state w);
  synced_value :
    left_state w
    = div (mul (to_num (dd_max (dragData w))) (value (store w))) (maxValue (store w));
  synced_closures :
    Forall (fun c => captured_maxValue c = maxValue (store w)) (mousemove w)
}.

(** A slider without travel: the thumb is recorded at offset 0 of a
    travel 0, and a pointer offset is recorded while a listener is
    registered. *)
Record Stuck (w : World) : Prop := {
  stuck_left : exists l, dd_left (dragData w) = Some (Fin l) /\ l == 0;
  stuck_max : exists m, dd_max (dragData w) = Some (Fin m) /\ m == 0;
  stuck_offset : (exists o, dd_offset (dragData w) = Some (Fin o)) \/ mousemove w = []
}.


(** ** Header.jsx

    The number that the heading shows: the [value] of the context. *)
Definition Header (c : ContextValue) : num := ctx_value c.

(** ** Slider.jsx, the variant without a store

    The first variant of the slider keeps the offset of the thumb as
    its only state and measures the page at every pointer-down. *)

Module Plain.

(** What [startDrag] reads from the page. *)
Record Measure : Type := mkMeasure {
  sliderLeft : Q;     (* slider.current.getBoundingClientRect().left *)
  sliderWidth : Q;    (* slider.current.clientWidth *)
  thumbLeft : Q;      (* thumb.current.getBoundingClientRect().left *)
  thumbWidth : Q      (* thumb.current.getBoundingClientRect().width *)
}.

Record World : Type := mkWorld {
  left_state : num;          (* the [left] state variable *)
  dragData : DragData;       (* dragData.current *)
  mousemove : list nat;      (* the registered [drag] closures *)
  mouseup : list nat;        (* the waiting [drop] closures *)
  fresh : nat;               (* identity of the next closure *)
  writes : list num          (* the arguments of [setLeft] so far, oldest first *)
}.

(** [drag], the "mousemove" listener. *)
Definition drag (pageX : Q) (w : World) : World :=
  let d := dragData w in
  let next :=
    JS.max (Fin 0)
           (JS.min (add (Fin pageX) (to_num (dd_offset d))) (to_num (dd_max d))) in
  if strict_neq (dd_left d) next then
    {| left_state := next;
       dragData := {| dd_left := Some next;
                      dd_max := dd_max d;
                      dd_offset := dd_offset d |};
       mousemove := mousemove w;
       mouseup := mouseup w;
       fresh := fresh w;
       writes := writes w ++ [next] |}
  else w.

(** [drop], the "mouseup" listener of the closure [id]. *)
Definition drop (id : nat) (w : World) : World :=
  {| left_state := left_state w;
     dragData := dragData w;
     mousemove := filter (fun c => negb (Nat.eqb c id)) (mousemove w);
     mouseup := mouseup w;
     fresh := fresh w;
     writes := writes w |}.

(** [startDrag], the "mousedown" handler of the thumb. *)
Definition startDrag (pageX : Q) (g : Measure) (w : World) : World :=
  let max := sub (Fin (sliderWidth g)) (Fin (thumbWidth g)) in
  let offset := sub (sub (Fin (thumbLeft g)) (Fin pageX)) (Fin (sliderLeft g)) in
  {| left_state := left_state w;
     dragData := {| dd_left := Some (Fin (thumbLeft g));
                    dd_max := Some max;
                    dd_offset := Some offset |};
     mousemove := mousemove w ++ [fresh w];
     mouseup := mouseup w ++ [fresh w];
     fresh := S (fresh w);
     writes := writes w |}.

(** The slider as first rendered: [useState(0)], [useRef({})]. *)
Definition first_render : World :=
  {| left_state := useState (Fin 0);
     dragData := {| dd_left := None; dd_max := None; dd_offset := None |};
     mousemove := [];
     mouseup := [];
     fresh := O;
     writes := [] |}.

Inductive Event : Type :=
| MouseDown (pageX : Q) (g : Measure)
| MouseMove (pageX : Q)
| MouseUp.

Definition dispatch (e : Event) (w : World) : World :=
  match e with
  | MouseDown x g => startDrag x g w
  | MouseMove x => fold_left (fun w _ => drag x w) (mousemove w) w
  | MouseUp =>
      let w' := fold_left (fun w id => drop id w) (mouseup w) w in
      {| left_state := left_state w';
         dragData := dragData w';
         mousemove := mousemove w';
         mouseup := [];
         fresh := fresh w';
         writes := writes w' |}
  end.

Definition run (es : list Event) (w : World) : World :=
  fold_left (fun w e => dispatch e w) es w.

(** The drag data are finite numbers, and every [drag] closure has its
    [drop] closure waiting. *)
Record Measured (w : World) : Prop := {
  measured_data : exists l m o,
      dragData w = {| dd_left := Some (Fin l);
                      dd_max := Some (Fin m);
                      dd_offset := Some (Fin o) |};
  measured_drops : forall c, In c (mousemove w) -> In c (mouseup w)
}.

End Plain.

(** ** The slider over an arithmetic

    The four arithmetic operators of the slider are the only place where
    a number is rounded.  [Slider] is the embedding of Slider.jsx (the
    variant with the store) over any implementation of them; the
    definitions above are its instance at the exact operators, and
    [B64] gives the operators of binary64. *)

Module Arith.

Record t : Type := mk {
  add : num -> num -> num;
  sub : num -> num -> num;
  mul : num -> num -> num;
  div : num -> num -> num
}.

(** The operators without rounding. *)
Definition exact : t :=
  {| add := JS.add; sub := JS.sub; mul := JS.mul; div := JS.div |}.

End Arith.

(** ** Binary64

    The double nearest to a rational, a tie going to the even
    significand: 53 bits of significand, exponents from -1074, and
    [Infinity] from 2^1024 on. *)

Module B64.

Definition pow2 (e : Z) : Q := 2 ^ e.

(** The largest [k] with [2^k <= a], for a positive [a]. *)
Definition ilog2 (a : Q) : Z :=
  let k := (Z.log2 (Qnum a) - Z.log2 (Zpos (Qden a)))%Z in
  if Qle_bool (pow2 k) a then k else (k - 1)%Z.

(** The nearest integer, a tie going to the even one. *)
Definition round_even (q : Q) : Z :=
  let f := Qfloor q in
  match Qcompare (q - inject_Z f) (1 # 2) with
  | Lt => f
  | Gt => (f + 1)%Z
  | Eq => if Z.even f then f else (f + 1)%Z
  end.

(** The double of a positive rational. *)
Definition fl_pos (a : Q) : num :=
  let e := Z.max (ilog2 a - 52) (-1074) in
  let y := inject_Z (round_even (a / pow2 e)) * pow2 e in
  if Qle_bool (pow2 1024) y then PInf else Fin (Qred y).

(** The double of a rational. *)
Definition fl (q : Q) : num :=
  let q := Qred q in
  match Qcompare q 0 with
  | Eq => Fin 0
  | Gt => fl_pos q
  | Lt => neg (fl_pos (- q))
  end.

(** The operators: the exact result of two finite operands is rounded;
    the other cases are those of the exact operators. *)
Definition add (a b : num) : num :=
  match a, b with
  | Fin x, Fin y => fl (x + y)
  | _, _ => JS.add a b
  end.

Definition sub (a b : num) : num :=
  match a, b with
  | Fin x, Fin y => fl (x - y)
  | _, _ => JS.sub a b
  end.

Definition mul (a b : num) : num :=
  match a, b with
  | Fin x, Fin y => fl (x * y)
  | _, _ => JS.mul a b
  end.

Definition div (a b : num) : num :=
  match a, b with
  | Fin x, Fin y => if Qeq_bool y 0 then JS.div a b else fl (x / y)
  | _, _ => JS.div a b
  end.

Definition arith : Arith.t :=
  {| Arith.add := add; Arith.sub := sub; Arith.mul := mul; Arith.div := div |}.

End B64.

Module Slider.

Section Over.

Variable A : Arith.t.

(** [drag], the "mousemove" listener, in a closure that captured
    [maxValue]. *)
Definition drag (maxValue : num) (pageX : Q) (w : World) : World :=
  let d := dragData w in
  let next :=
    JS.max (Fin 0)
           (JS.min (Arith.add A (Fin pageX) (to_num (dd_offset d)))
                   (to_num (dd_max d))) in
  if strict_neq (dd_left d) next then
    (* Calculate the current value *)
    let value := round (Arith.mul A (Arith.div A next (to_num (dd_max d))) maxValue) in
    let w := call_setValue value w in
    (* Snap the thumb to the current value *)
    let next := Arith.div A (Arith.mul A (to_num (dd_max d)) value) maxValue in
    let w := set_dragData
               {| dd_left := Some next;
                  dd_max := dd_max d;
                  dd_offset := dd_offset d |} w in
    setLeft next w
  else w.

(** [startDrag], the "mousedown" handler of the thumb. *)
Definition startDrag (pageX : Q) (w : World) : World :=
  let d := dragData w in
  let d := {| dd_left := dd_left d;
              dd_max := dd_max d;
              dd_offset := Some (Arith.sub A (to_num (dd_left d)) (Fin pageX)) |} in
  {| store := store w;
     left_state := left_state w;
     dragData := d;
     mousemove := mousemove w
                  ++ [{| lid := fresh w; captured_maxValue := maxValue (store w) |}];
     mouseup := mouseup w ++ [fresh w];
     fresh := S (fresh w);
     writes := writes w |}.

(** [initialize], run once after the first rendering. *)
Definition initialize (sliderWidth width : Q) (w : World) : World :=
  let max := Arith.sub A (Fin sliderWidth) (Fin width) in
  let left := Arith.div A (Arith.mul A max (value (store w))) (maxValue (store w)) in
  let w := set_dragData
             {| dd_left := Some left; dd_max := Some max; dd_offset := None |} w in
  setLeft left w.

Definition mount (s : SliderState) (sliderWidth width : Q) : World :=
  initialize sliderWidth width (first_render s).

Definition App (sliderWidth width : Q) : World :=
  mount SliderProvider sliderWidth width.

Definition dispatch (e : Event) (w : World) : World :=
  match e with
  | MouseDown x => startDrag x w
  | MouseMove x =>
      fold_left (fun w l => drag (captured_maxValue l) x w) (mousemove w) w
  | MouseUp =>
      let w' := fold_left (fun w id => drop id w) (mouseup w) w in
      {| store := store w';
         left_state := left_state w';
         dragData := dragData w';
         mousemove := mousemove w';
         mouseup := [];
         fresh := fresh w';
         writes := writes w' |}
  end.

Definition run (es : list Event) (w : World) : World :=
  fold_left (fun w e => dispatch e w) es w.

End Over.

End Slider.

(** A number below 0 or equal to it, and a number above [m] or equal to
    it; an infinity counts. *)
Definition at_most_zero (c : num) : Prop :=
  c = NInf \/ exists q, c = Fin q /\ q <= 0.

Definition at_least (m : Q) (c : num) : Prop :=
  c = PInf \/ exists q, c = Fin q /\ m <= q.

(** [y] lies between [x * a] and [x * b]. *)
Definition within (x a b y : Q) : Prop := x * a <= y <= x * b.

(** The factors of one rounding in the normal range. *)
Definition ulo : Q := 1 - B64.pow2 (-53).
Definition uhi : Q := 1 + B64.pow2 (-53).

(** The exponent of the last bit of the double of a positive rational,
    and that double before the check for overflow. *)
Definition exponent (a : Q) : Z := Z.max (B64.ilog2 a - 52) (-1074).

Definition nearest (a : Q) : Q :=
  inject_Z (B64.round_even (a / B64.pow2 (exponent a))) * B64.pow2 (exponent a).

(** The invariant of a slider mounted in binary64 on a store whose
    [maxValue] is [M], with the travel [m]: the stored value and every
    emitted one are between 0 and [M], no recorded number is [NaN], and
    the listeners captured [M]. *)
Record Ranged (M m : Q) (w : World) : Prop := {
  ranged_maxValue : maxValue (store w) = Fin M;
  ranged_value : in_range M (value (store w));
  ranged_max : dd_max (dragData w) = Some (Fin m);
  ranged_left : exists t, dd_left (dragData w) = Some t /\ t <> NaN;
  ranged_offset :
    (exists o, dd_offset (dragData w) = Some o /\ o <> NaN) \/ mousemove w = [];
  ranged_closures : Forall (fun c => captured_maxValue c = Fin M) (mousemove w);
  ranged_emitted : Forall (in_range M) (emitted (writes w))
}.

(** * Properties *)

(** The scenario of the specification: the application on a track of
    width 320 with a thumb of width 32 starts at offset 144. *)
Example scenario_mount :
  writes (App 320 32) = [SetLeft (Fin ((320 - 32) * 50 / 100))] /\
  strict_eq (left_state (App 320 32)) (Fin 144) = true.
Proof. split; reflexivity. Qed.

(** ** Rounding and clamping *)

Lemma Qround_inject_Z (z : Z) : Qround (inject_Z z) = z.
Proof.
  unfold Qround, Qfloor, Qplus, inject_Z; simpl.
  symmetry. apply Z.div_unique with (r := 1%Z); lia.
Qed.

Lemma Qround_le (x y : Q) : x <= y -> (Qround x <= Qround y)%Z.
Proof. intros H. apply Qfloor_resp_le. lra. Qed.

Lemma Qround_comp (x y : Q) : x == y -> Qround x = Qround y.
Proof. intros H. unfold Qround. now rewrite H. Qed.

Lemma Qround_int (x : Q) (z : Z) : x == inject_Z z -> Qround x = z.
Proof. intros H. rewrite (Qround_comp _ _ H). apply Qround_inject_Z. Qed.

Lemma clamp_bounds (m c : Q) : 0 <= m -> 0 <= clamp m c <= m.
Proof.
  intros Hm. unfold clamp. split.
  - apply Q.le_max_l.
  - apply Q.max_lub; [exact Hm | apply Q.le_min_r].
Qed.

Lemma clamp_mono (m c c' : Q) : c <= c' -> clamp m c <= clamp m c'.
Proof.
  intros H. unfold clamp.
  apply Q.max_le_compat_l. apply Q.min_le_compat_r. exact H.
Qed.

Lemma clamp_below (m c : Q) : c <= 0 -> 0 <= m -> clamp m c == 0.
Proof.
  intros Hc Hm. unfold clamp. apply Q.max_l.
  eapply Qle_trans; [apply Q.le_min_l | exact Hc].
Qed.

Lemma clamp_above (m c : Q) : m <= c -> 0 <= m -> clamp m c == m.
Proof.
  intros Hc Hm. unfold clamp.
  rewrite (Q.min_r _ _ Hc). now apply Q.max_r.
Qed.

Lemma clamp_negative_travel (m c : Q) : m <= 0 -> clamp m c == 0.
Proof.
  intros Hm. unfold clamp. apply Q.max_l.
  eapply Qle_trans; [apply Q.le_min_r | exact Hm].
Qed.


(** ** One call of [drag] *)

Lemma Qeq_bool_false (x y : Q) : ~ x == y -> Qeq_bool x y = false.
Proof.
  intros H. destruct (Qeq_bool x y) eqn:E; [|reflexivity].
  apply Qeq_bool_eq in E. contradiction.
Qed.

Lemma div_Fin (x y : Q) : ~ y == 0 -> div (Fin x) (Fin y) = Fin (x / y).
Proof. intros H. simpl. now rewrite (Qeq_bool_false _ _ H). Qed.

Lemma emitted_app (a b : list Write) : emitted (a ++ b) = emitted a ++ emitted b.
Proof.
  induction a as [|[v|l] a IH]; simpl; [reflexivity | now rewrite IH | exact IH].
Qed.

Lemma displayed_app (a b : list Write) : displayed (a ++ b) = displayed a ++ displayed b.
Proof.
  induction a as [|[v|l] a IH]; simpl; [reflexivity | exact IH | now rewrite IH].
Qed.

(** With finite drag data and a travel other than zero, [drag] is the
    guarded update of the specification. *)
Lemma drag_eval (w : World) (M l m o x : Q) :
  dd_left (dragData w) = Some (Fin l) ->
  dd_max (dragData w) = Some (Fin m) ->
  dd_offset (dragData w) = Some (Fin o) ->
  ~ m == 0 ->
  drag (Fin M) x w =
    if Qeq_bool l (clamp m (x + o)) then w
    else updated w (Fin (inject_Z (value_at M m o x)))
                   (div (Fin (m * inject_Z (value_at M m o x))) (Fin M)).
Proof.
  intros Hl Hm Ho Hm0. unfold drag, updated.
  rewrite Hl, Hm, Ho. cbn [to_num add JS.min JS.max strict_neq strict_eq].
  fold (clamp m (x + o)).
  destruct (Qeq_bool l (clamp m (x + o))); cbn [negb]; [reflexivity|].
  rewrite (div_Fin _ _ Hm0). cbn [mul round].
  fold (value_at M m o x).
  unfold setLeft, set_dragData, call_setValue; cbn.
  now rewrite <- app_assoc.
Qed.


(** ** The invariant of a mounted slider *)

Section Mapper.

(** The [maxValue] of the store, the travel [max] of the thumb, and a
    property that every value computed from a pointer position has. *)
Variables M m : Q.
Variable Vok : Q -> Prop.
Hypothesis HM : ~ M == 0.
Hypothesis Hm : ~ m == 0.
Hypothesis Vok_value_at : forall o x, Vok (inject_Z (value_at M m o x)).

Lemma Inv_mount (s : SliderState) (v sliderWidth width : Q) :
  m = sliderWidth - width ->
  s = {| maxValue := Fin M; value := Fin v |} ->
  Vok v ->
  Inv M m Vok (mount s sliderWidth width).
Proof.
  intros E -> Hv. unfold mount, initialize.
  cbn [first_render store value maxValue sub neg add mul].
  rewrite (div_Fin _ _ HM).
  constructor; unfold paired in *; cbn; auto.
  - now rewrite E.
  - exists v, (m * v / M). rewrite E. repeat split; auto; reflexivity.
  - constructor; [now eexists | constructor].
Qed.

Lemma Inv_updated (w : World) (o x : Q) :
  Inv M m Vok w -> Inv M m Vok (updated w (V M m o x) (L M m o x)).
Proof.
  intros [H1 H2 H3 H4 H5 H6 H7 H8]. constructor; unfold paired in *; cbn; auto.
  - exists (inject_Z (value_at M m o x)), (m * inject_Z (value_at M m o x) / M).
    repeat split; auto; reflexivity.
  - rewrite emitted_app. apply Forall_app. split; [exact H7|].
    cbn. constructor; [|constructor].
    exists (inject_Z (value_at M m o x)). split; [reflexivity | apply Vok_value_at].
  - rewrite displayed_app. apply Forall_app. split; [exact H8|].
    cbn. constructor; [now eexists | constructor].
Qed.

(** A call of [drag] leaves the world as it is, when the recorded
    offset is the clamped one, or updates it. *)
Lemma drag_step (w : World) (o x : Q) :
  Inv M m Vok w -> dd_offset (dragData w) = Some (Fin o) ->
  (at_clamp m o x w /\ drag (Fin M) x w = w) \/
  (~ at_clamp m o x w /\ drag (Fin M) x w = updated w (V M m o x) (L M m o x)).
Proof.
  intros HI Ho. destruct (inv_sync _ _ _ _ HI) as (v & l & _ & _ & Hl & _ & _).
  rewrite (drag_eval w M l m o x Hl (inv_max _ _ _ _ HI) Ho Hm).
  destruct (Qeq_bool l (clamp m (x + o))) eqn:E.
  - left. split; [|reflexivity]. exists l. split; [exact Hl | now apply Qeq_bool_eq].
  - right. split.
    + intros (l' & Hl' & E'). rewrite Hl in Hl'. injection Hl' as <-.
      apply Qeq_eq_bool in E'. congruence.
    + rewrite (div_Fin _ _ HM). reflexivity.
Qed.


Lemma updates_Inv (k : nat) (o x : Q) (w : World) :
  Inv M m Vok w -> Inv M m Vok (updates M m k o x w).
Proof.
  intros HI. induction k as [|k IH]; [exact HI|]. cbn. now apply Inv_updated.
Qed.

Lemma updates_frame (k : nat) (o x : Q) (w : World) :
  let w' := updates M m k o x w in
  dd_offset (dragData w') = dd_offset (dragData w) /\
  dd_max (dragData w') = dd_max (dragData w) /\
  maxValue (store w') = maxValue (store w) /\
  mousemove w' = mousemove w /\ mouseup w' = mouseup w /\ fresh w' = fresh w.
Proof.
  induction k as [|k IH]; cbn; [repeat split|]. exact IH.
Qed.



Lemma updates_last (k : nat) (o x : Q) (w : World) :
  (0 < k)%nat ->
  let w' := updates M m k o x w in
  value (store w') = V M m o x /\ left_state w' = L M m o x /\
  dd_left (dragData w') = Some (L M m o x).
Proof.
  destruct k as [|k]; [lia|]. intros _. cbn. auto.
Qed.

(** The listeners of one move event, run in order. *)
Lemma fold_drag (cs : list Listener) (w : World) (o x : Q) :
  Inv M m Vok w -> dd_offset (dragData w) = Some (Fin o) ->
  Forall (fun c => captured_maxValue c = Fin M) cs ->
  exists k, (k <= length cs)%nat /\
    fold_left (fun w c => drag (captured_maxValue c) x w) cs w = updates M m k o x w /\
    (k = O -> cs = [] \/ at_clamp m o x w).
Proof.
  intros HI Ho Hcs. revert w HI Ho.
  induction Hcs as [|c cs Hc Hcs IH]; intros w HI Ho.
  - exists O. split; [cbn; lia | split; [reflexivity | now left]].
  - cbn [fold_left]. rewrite Hc.
    destruct (drag_step w o x HI Ho) as [[Hat E] | [Hat E]]; rewrite E.
    + destruct (IH w HI Ho) as (k & Hk & Ek & _). exists k.
      split; [cbn; lia | split; [exact Ek | now right]].
    + destruct (IH (updated w (V M m o x) (L M m o x))) as (k & Hk & Ek & _).
      * now apply Inv_updated.
      * exact Ho.
      * exists (S k). split; [cbn; lia|]. split; [|discriminate]. rewrite Ek.
        unfold updates. now rewrite Nat.iter_succ_r.
Qed.

Lemma dispatch_move (w : World) (o x : Q) :
  Inv M m Vok w -> dd_offset (dragData w) = Some (Fin o) ->
  exists k, (k <= length (mousemove w))%nat /\
    dispatch (MouseMove x) w = updates M m k o x w /\
    (k = O -> mousemove w = [] \/ at_clamp m o x w).
Proof.
  intros HI Ho. exact (fold_drag _ w o x HI Ho (inv_closures _ _ _ _ HI)).
Qed.

Lemma dispatch_move_idle (w : World) (x : Q) :
  mousemove w = [] -> dispatch (MouseMove x) w = w.
Proof. intros H. cbn. now rewrite H. Qed.

(** Pointer-down: one more [drag] closure, one more [drop] closure, and
    the pointer offset of the new gesture. *)
Lemma startDrag_Inv (w : World) (x : Q) : Inv M m Vok w -> Inv M m Vok (startDrag x w).
Proof.
  intros [H1 H2 H3 H4 H5 H6 H7 H8]. constructor; unfold paired in *; cbn; auto.
  - destruct H3 as (v & l & Hv & Hok & Hl & Hs & E). rewrite Hl. cbn.
    left. now exists (l + - x).
  - apply Forall_app. split; [exact H5|]. constructor; [exact H1 | constructor].
  - intros c Hc. apply in_app_or in Hc. apply in_or_app.
    destruct Hc as [Hc | [<- | []]]; [left; now apply H6 | right; now left].
Qed.

Lemma startDrag_offset (w : World) (x l : Q) :
  dd_left (dragData w) = Some (Fin l) ->
  dd_offset (dragData (startDrag x w)) = Some (Fin (l - x)).
Proof. intros H. cbn. now rewrite H. Qed.

Lemma fold_drop (ids : list nat) (w : World) :
  fold_left (fun w id => drop id w) ids w
  = {| store := store w;
       left_state := left_state w;
       dragData := dragData w;
       mousemove := remaining ids (mousemove w);
       mouseup := mouseup w;
       fresh := fresh w;
       writes := writes w |}.
Proof.
  revert w. induction ids as [|id ids IH]; intros w; cbn [fold_left].
  - now destruct w.
  - rewrite IH. reflexivity.
Qed.

Lemma In_remaining (ids : list nat) (cs : list Listener) (c : Listener) :
  In c (remaining ids cs) <-> In c cs /\ ~ In (lid c) ids.
Proof.
  revert cs. induction ids as [|id ids IH]; intros cs; cbn [remaining fold_left].
  - cbn. tauto.
  - fold (remaining ids (filter (fun c => negb (Nat.eqb (lid c) id)) cs)).
    rewrite IH, filter_In, negb_true_iff, Nat.eqb_neq. cbn. intuition congruence.
Qed.

Lemma remaining_all (ids : list nat) (cs : list Listener) :
  (forall c, In c cs -> In (lid c) ids) -> remaining ids cs = [].
Proof.
  intros H. destruct (remaining ids cs) as [|c r] eqn:E; [reflexivity|].
  assert (Hc : In c (remaining ids cs)) by (rewrite E; now left).
  apply In_remaining in Hc. destruct Hc as [Hc Hn]. now apply H in Hc.
Qed.

(** Pointer-up: every [drop] closure runs, and no listener is left. *)
Lemma dispatch_up (w : World) :
  Inv M m Vok w ->
  dispatch MouseUp w
  = {| store := store w;
       left_state := left_state w;
       dragData := dragData w;
       mousemove := [];
       mouseup := [];
       fresh := fresh w;
       writes := writes w |}.
Proof.
  intros HI. cbn [dispatch]. rewrite fold_drop. cbn.
  now rewrite (remaining_all _ _ (inv_drops _ _ _ _ HI)).
Qed.

Lemma dispatch_Inv (e : Event) (w : World) : Inv M m Vok w -> Inv M m Vok (dispatch e w).
Proof.
  intros HI. destruct e as [x | x |].
  - now apply startDrag_Inv.
  - destruct (inv_offset _ _ _ _ HI) as [[o Ho] | Hnil].
    + destruct (dispatch_move w o x HI Ho) as (k & _ & -> & _). now apply updates_Inv.
    + now rewrite dispatch_move_idle.
  - rewrite (dispatch_up _ HI). destruct HI as [H1 H2 H3 H4 H5 H6 H7 H8].
    constructor; unfold paired in *; cbn; auto.
Qed.

Lemma run_Inv (es : list Event) (w : World) : Inv M m Vok w -> Inv M m Vok (run es w).
Proof.
  revert w. induction es as [|e es IH]; intros w HI; [exact HI|].
  cbn [run fold_left]. apply IH. now apply dispatch_Inv.
Qed.

End Mapper.

(** ** The shared value store *)

(** C10.  The context value carries [maxValue], [value] and [setValue]
    only.  The provider starts with [maxValue] 100 and [value] 50, and
    [maxValue] stays 100 under every sequence of calls of the exposed
    setter and under every sequence of pointer events on the slider. *)
Theorem maxValue_constant :
  maxValue SliderProvider = Fin 100 /\
  value SliderProvider = Fin 50 /\
  (forall s, provide s = mkContext (maxValue s) (value s) setValue) /\
  (forall nexts : list num,
      maxValue (fold_left (fun s next => ctx_setValue (provide s) next s)
                          nexts SliderProvider) = Fin 100) /\
  (forall (sliderWidth width : Q) (es : list Event),
      maxValue (store (run es (App sliderWidth width))) = Fin 100).
Proof.
  split; [reflexivity|]. split; [reflexivity|]. split; [reflexivity|]. split.
  - intros nexts.
    assert (H : forall s, maxValue (fold_left
                (fun s next => ctx_setValue (provide s) next s) nexts s) = maxValue s).
    { induction nexts as [|n nexts IH]; intros s; [reflexivity|].
      cbn [fold_left]. now rewrite IH. }
    now rewrite H.
  - intros sliderWidth width es.
    assert (Hdrag : forall c x w, maxValue (store (drag c x w)) = maxValue (store w)).
    { intros c x w. unfold drag.
      now destruct (strict_neq _ _). }
    assert (Hmove : forall cs x w,
               maxValue (store (fold_left
                 (fun w c => drag (captured_maxValue c) x w) cs w)) = maxValue (store w)).
    { induction cs as [|c cs IH]; intros x w; [reflexivity|].
      cbn [fold_left]. now rewrite IH, Hdrag. }
    assert (Hstep : forall e w, maxValue (store (dispatch e w)) = maxValue (store w)).
    { intros [x | x |] w; cbn [dispatch store]; [reflexivity | apply Hmove |].
      now rewrite fold_drop. }
    assert (Hrun : forall w, maxValue (store (run es w)) = maxValue (store w)).
    { induction es as [|e es IH]; intros w; [reflexivity|].
      cbn [run fold_left]. fold (run es (dispatch e w)). now rewrite IH, Hstep. }
    now rewrite Hrun.
Qed.

(** ** The value of a pointer position *)

Lemma scaled_mono (m M c c' : Q) :
  0 < m -> 0 <= M -> c <= c' -> c / m * M <= c' / m * M.
Proof.
  intros Hm HM Hc. unfold Qdiv.
  apply Qmult_le_compat_r; [|exact HM].
  apply Qmult_le_compat_r; [exact Hc|].
  apply Qinv_le_0_compat. now apply Qlt_le_weak.
Qed.

Lemma scaled_bounds (m M c : Q) :
  0 < m -> 0 <= M -> 0 <= c <= m -> 0 <= c / m * M <= M.
Proof.
  intros Hm HM [H0 H1]. split.
  - assert (E : 0 == 0 / m * M) by (field; lra).
    rewrite E at 1. now apply scaled_mono.
  - assert (E : M == m / m * M) by (field; lra).
    rewrite E at 2. now apply scaled_mono.
Qed.


Lemma value_at_range (Mz : Z) (m o x : Q) :
  0 < m -> (0 <= Mz)%Z -> (0 <= value_at (inject_Z Mz) m o x <= Mz)%Z.
Proof.
  intros Hm HM. unfold value_at.
  assert (HMq : 0 <= inject_Z Mz) by (change 0 with (inject_Z 0); now rewrite <- Zle_Qle).
  destruct (scaled_bounds m (inject_Z Mz) (clamp m (x + o)) Hm HMq) as [H0 H1].
  { apply clamp_bounds. lra. }
  split.
  - rewrite <- (Qround_inject_Z 0). now apply Qround_le.
  - apply Z.le_trans with (Qround (inject_Z Mz)); [now apply Qround_le|].
    rewrite Qround_inject_Z. apply Z.le_refl.
Qed.


Lemma value_at_full (Mz : Z) (m o x : Q) :
  ~ m == 0 -> clamp m (x + o) == m -> value_at (inject_Z Mz) m o x = Mz.
Proof.
  intros Hm Hc. unfold value_at. apply Qround_int.
  rewrite Hc. field. exact Hm.
Qed.

(** ** Monotonicity *)


Lemma run_moves_idle (xs : list Q) (w : World) :
  mousemove w = [] -> run (map MouseMove xs) w = w.
Proof.
  intros H. induction xs as [|x xs IH]; [reflexivity|].
  cbn [map run fold_left]. rewrite (dispatch_move_idle w x H). exact IH.
Qed.




Example drag_right_emits :
  emitted (writes (run (map MouseMove [150; 150; 200; 500])
                       (run [MouseDown 144] (App 320 32))))
  = [Fin 52; Fin 52; Fin 69; Fin 100].
Proof. reflexivity. Qed.

(** ** The ends of the track *)




(** ** A thumb wider than the track *)




(** ** Creation of the store *)




(** ** Registration of the listeners *)


Lemma drag_listeners (c : num) (x : Q) (w : World) :
  mousemove (drag c x w) = mousemove w /\ mouseup (drag c x w) = mouseup w.
Proof. unfold drag. now destruct (strict_neq _ _). Qed.

(** One call of [drag] makes no setter call, or one of each setter. *)
Lemma drag_writes (c : num) (x : Q) (w : World) :
  exists new, writes (drag c x w) = writes w ++ new /\
              (length (emitted new) <= 1)%nat /\ (length (displayed new) <= 1)%nat.
Proof.
  unfold drag. destruct (strict_neq _ _).
  - eexists [SetValue _; SetLeft _]. cbn. rewrite <- app_assoc. repeat split; lia.
  - exists []. cbn. rewrite app_nil_r. repeat split; lia.
Qed.

Lemma fold_drag_listeners (cs : list Listener) (x : Q) (w : World) :
  let w' := fold_left (fun w c => drag (captured_maxValue c) x w) cs w in
  mousemove w' = mousemove w /\ mouseup w' = mouseup w /\
  exists new, writes w' = writes w ++ new /\
              (length (emitted new) <= length cs)%nat /\
              (length (displayed new) <= length cs)%nat.
Proof.
  revert w. induction cs as [|c cs IH]; intros w; cbn [fold_left].
  - repeat split. exists []. cbn. rewrite app_nil_r. repeat split; lia.
  - destruct (IH (drag (captured_maxValue c) x w)) as (E1 & E2 & new & Ew & He & Hd).
    destruct (drag_listeners (captured_maxValue c) x w) as [D1 D2].
    destruct (drag_writes (captured_maxValue c) x w) as (new0 & Ew0 & He0 & Hd0).
    cbn zeta. rewrite E1, E2, D1, D2. repeat split.
    exists (new0 ++ new). rewrite Ew, Ew0, <- app_assoc, emitted_app, displayed_app.
    rewrite !length_app. cbn [length]. repeat split; lia.
Qed.

Lemma dispatch_listeners (e : Event) (w : World) (n : nat) :
  paired w -> length (mousemove w) = n ->
  paired (dispatch e w) /\
  length (mousemove (dispatch e w))
  = match e with
    | MouseDown _ => S n
    | MouseMove _ => n
    | MouseUp => O
    end.
Proof.
  intros Hp Hn. destruct e as [x | x |].
  - split.
    + intros c Hc. cbn in Hc |- *. apply in_app_or in Hc. apply in_or_app.
      destruct Hc as [Hc | [<- | []]]; [left; now apply Hp | right; now left].
    + cbn. rewrite length_app. cbn. lia.
  - destruct (fold_drag_listeners (mousemove w) x w) as (E1 & E2 & _).
    cbn [dispatch]. split; [|now rewrite E1].
    intros c Hc. rewrite E1 in Hc. rewrite E2. now apply Hp.
  - cbn [dispatch]. rewrite fold_drop. cbn.
    rewrite (remaining_all _ _ Hp). split; [intros c []|reflexivity].
Qed.

Lemma run_snoc (es : list Event) (e : Event) (w : World) :
  run (es ++ [e]) w = dispatch e (run es w).
Proof. unfold run. now rewrite fold_left_app. Qed.

Lemma run_listeners (es : list Event) (w : World) :
  mousemove w = [] ->
  paired (run es w) /\ length (mousemove (run es w)) = pending es.
Proof.
  intros Hw. induction es as [|e es [IH1 IH2]] using rev_ind.
  - cbn. split; [|now rewrite Hw]. intros c Hc. rewrite Hw in Hc. destruct Hc.
  - rewrite run_snoc. unfold pending. rewrite fold_left_app. cbn [fold_left].
    fold (pending es). now apply dispatch_listeners.
Qed.

(** C9, as the specification states it, fails: a second pointer-down
    before the pointer-up leaves two move listeners, and one move of the
    pointer then makes two calls of [setValue] and two of [setLeft]. *)
Lemma second_pointer_down_adds_listener :
  let w := run [MouseDown 144; MouseDown 144] (App 320 32) in
  let w' := dispatch (MouseMove 100) w in
  length (mousemove w) = 2%nat /\
  emitted (writes w') = emitted (writes w) ++ [Fin 35; Fin 35] /\
  length (displayed (writes w')) = (length (displayed (writes w)) + 2)%nat.
Proof. repeat split. Qed.

(** C9, amended.  Every pointer-down on the thumb registers one more
    move listener, also during a drag, so that the number of move
    listeners is the number of pointer-down events since the last
    pointer-up; the pointer-up removes them all; and one move event
    makes at most one call of [setValue] and one of [setLeft] for each
    registered listener. *)
Theorem listeners_registered
    (s : SliderState) (sliderWidth width x : Q) (es : list Event) :
  let w := run es (mount s sliderWidth width) in
  length (mousemove w) = pending es /\
  length (mousemove (dispatch (MouseDown x) w)) = S (length (mousemove w)) /\
  mousemove (dispatch MouseUp w) = [] /\
  exists new,
    writes (dispatch (MouseMove x) w) = writes w ++ new /\
    (length (emitted new) <= length (mousemove w))%nat /\
    (length (displayed new) <= length (mousemove w))%nat.
Proof.
  intros w.
  destruct (run_listeners es (mount s sliderWidth width) eq_refl) as [Hp Hn].
  fold w in Hp, Hn. split; [exact Hn|]. split; [|split].
  - now destruct (dispatch_listeners (MouseDown x) w _ Hp eq_refl).
  - destruct (dispatch_listeners MouseUp w _ Hp eq_refl) as [_ H].
    now apply length_zero_iff_nil.
  - now destruct (fold_drag_listeners (mousemove w) x w) as (_ & _ & H).
Qed.

(** ** Repeated move events *)

(** C3.  The code at an input where the claim fails: during one drag on
    the scenario slider, two move events at the same pointer position
    100, hence with the same clamped offset 100.  The first one writes
    the value 35 and snaps the recorded offset to 100.8; the second one
    compares the clamped offset 100 with 100.8, and calls [setValue] and
    [setLeft] again, with the same arguments: two updates, not one. *)
Theorem repeated_move_updates_twice :
  let w0 := run [MouseDown 144] (App 320 32) in
  let w1 := dispatch (MouseMove 100) w0 in
  let w2 := dispatch (MouseMove 100) w1 in
  length (mousemove w0) = 1%nat /\
  dd_offset (dragData w1) = dd_offset (dragData w0) /\
  dd_max (dragData w1) = dd_max (dragData w0) /\
  strict_eq (left_state w1) (Fin (1008 # 10)) = true /\
  emitted (writes w1) = emitted (writes w0) ++ [Fin 35] /\
  emitted (writes w2) = emitted (writes w1) ++ [Fin 35] /\
  length (displayed (writes w1)) = S (length (displayed (writes w0))) /\
  length (displayed (writes w2)) = S (length (displayed (writes w1))) /\
  w2 <> w1 /\
  store w2 = store w1 /\ left_state w2 = left_state w1.
Proof.
  repeat split.
  intros H. apply (f_equal (fun w => length (writes w))) in H. discriminate.
Qed.

(** When the second of two equal move events does nothing: exactly when
    the clamped offset is the offset recorded after the first one, that
    is, when the clamped offset is a snapped one. *)
Lemma second_move_noop_iff
    (M m o x : Q) (Vok : Q -> Prop) (c : Listener) (w : World) :
  ~ M == 0 -> ~ m == 0 ->
  (forall o x, Vok (inject_Z (value_at M m o x))) ->
  Inv M m Vok w -> dd_offset (dragData w) = Some (Fin o) -> mousemove w = [c] ->
  let w1 := dispatch (MouseMove x) w in
  dispatch (MouseMove x) w1 = w1 <-> at_clamp m o x w1.
Proof.
  intros HM Hm HV HI Ho Hc w1.
  assert (HI1 : Inv M m Vok w1) by (apply dispatch_Inv; auto).
  assert (Hf : dd_offset (dragData w1) = Some (Fin o) /\ mousemove w1 = [c]).
  { unfold w1. destruct (dispatch_move M m Vok HM Hm HV w o x HI Ho) as (k & _ & -> & _).
    pose proof (updates_frame M m k o x w) as (E1 & _ & _ & E2 & _).
    now rewrite E1, E2. }
  destruct Hf as [Ho1 Hc1].
  assert (E : dispatch (MouseMove x) w1 = drag (Fin M) x w1).
  { cbn [dispatch]. rewrite Hc1. cbn [fold_left].
    pose proof (inv_closures _ _ _ _ HI1) as Hcl. rewrite Hc1 in Hcl.
    inversion Hcl as [|? ? Hcap _]; subst. now rewrite Hcap. }
  rewrite E.
  destruct (drag_step M m Vok HM Hm w1 o x HI1 Ho1) as [[Hat ->] | [Hat ->]].
  - tauto.
  - split; [|contradiction]. intros H.
    apply (f_equal (fun w => length (writes w))) in H.
    cbn in H. rewrite length_app in H. cbn in H. lia.
Qed.

(** * Further properties of the slider *)

(** ** The thumb and the store stay in step *)

Lemma drag_frame (c : num) (x : Q) (w : World) :
  dd_max (dragData (drag c x w)) = dd_max (dragData w) /\
  dd_offset (dragData (drag c x w)) = dd_offset (dragData w) /\
  maxValue (store (drag c x w)) = maxValue (store w).
Proof. unfold drag. now destruct (strict_neq _ _). Qed.

Lemma dispatch_frame (e : Event) (w : World) :
  dd_max (dragData (dispatch e w)) = dd_max (dragData w) /\
  maxValue (store (dispatch e w)) = maxValue (store w).
Proof.
  destruct e as [x | x |]; cbn [dispatch].
  - split; reflexivity.
  - generalize (mousemove w) as cs. intros cs. revert w.
    induction cs as [|c cs IH]; intros w; cbn [fold_left]; [split; reflexivity|].
    destruct (IH (drag (captured_maxValue c) x w)) as [E1 E2].
    destruct (drag_frame (captured_maxValue c) x w) as (D1 & _ & D2).
    split; congruence.
  - rewrite fold_drop. split; reflexivity.
Qed.

Lemma run_frame (es : list Event) (w : World) :
  dd_max (dragData (run es w)) = dd_max (dragData w) /\
  maxValue (store (run es w)) = maxValue (store w).
Proof.
  revert w. induction es as [|e es IH]; intros w; [split; reflexivity|].
  cbn [run fold_left]. fold (run es (dispatch e w)).
  destruct (IH (dispatch e w)) as [E1 E2]. destruct (dispatch_frame e w) as [D1 D2].
  split; congruence.
Qed.

Lemma Synced_mount (s : SliderState) (sliderWidth width : Q) :
  Synced (mount s sliderWidth width).
Proof. constructor; cbn; [reflexivity | reflexivity | constructor]. Qed.

Lemma drag_Synced (x : Q) (w : World) :
  Synced w -> Synced (drag (maxValue (store w)) x w).
Proof.
  intros [H1 H2 H3]. unfold drag.
  destruct (strict_neq _ _); [|now constructor].
  constructor; cbn; [reflexivity | reflexivity | exact H3].
Qed.

Lemma fold_drag_Synced (cs : list Listener) (x : Q) (w : World) :
  Forall (fun c => captured_maxValue c = maxValue (store w)) cs ->
  Synced w ->
  Synced (fold_left (fun w c => drag (captured_maxValue c) x w) cs w).
Proof.
  revert w. induction cs as [|c cs IH]; intros w Hcs HS; [exact HS|].
  cbn [fold_left]. inversion Hcs as [|? ? Hc Hcs']; subst.
  rewrite Hc. apply IH; [|now apply drag_Synced].
  destruct (drag_frame (maxValue (store w)) x w) as (_ & _ & ->). exact Hcs'.
Qed.

Lemma Forall_remaining (P : Listener -> Prop) (ids : list nat) (cs : list Listener) :
  Forall P cs -> Forall P (remaining ids cs).
Proof.
  rewrite !Forall_forall. intros H c Hc. apply In_remaining in Hc. now apply H.
Qed.

Lemma dispatch_Synced (e : Event) (w : World) : Synced w -> Synced (dispatch e w).
Proof.
  intros HS. destruct e as [x | x |]; cbn [dispatch].
  - destruct HS as [H1 H2 H3]. constructor; cbn; auto.
    apply Forall_app. split; [exact H3 | now repeat constructor].
  - apply fold_drag_Synced; [exact (synced_closures _ HS) | exact HS].
  - rewrite fold_drop. destruct HS as [H1 H2 H3]. constructor; cbn; auto.
    now apply Forall_remaining.
Qed.

Lemma run_Synced (es : list Event) (w : World) : Synced w -> Synced (run es w).
Proof.
  revert w. induction es as [|e es IH]; intros w HS; [exact HS|].
  cbn [run fold_left]. apply IH. now apply dispatch_Synced.
Qed.

(** X1.  After mounting and after every sequence of pointer events, the
    offset displayed for the thumb is the offset recorded in
    [dragData.current.left], whatever the store and the widths are. *)
Theorem displayed_is_recorded
    (s : SliderState) (sliderWidth width : Q) (es : list Event) :
  let w := run es (mount s sliderWidth width) in
  dd_left (dragData w) = Some (left_state w).
Proof.
  intros w. apply synced_left. apply run_Synced. apply Synced_mount.
Qed.

(** X2.  After mounting and after every sequence of pointer events, the
    displayed offset is [(max * value) / maxValue] for the value in the
    store, with [max] the width of the track less the width of the
    thumb as measured by [initialize], and [maxValue] as the store was
    created; this holds for numbers of any kind. *)
Theorem thumb_follows_value
    (s : SliderState) (sliderWidth width : Q) (es : list Event) :
  let w := run es (mount s sliderWidth width) in
  left_state w
  = div (mul (sub (Fin sliderWidth) (Fin width)) (value (store w))) (maxValue s).
Proof.
  intros w.
  pose proof (run_Synced es _ (Synced_mount s sliderWidth width)) as HS.
  destruct (run_frame es (mount s sliderWidth width)) as [E1 E2].
  fold w in HS, E1, E2. rewrite (synced_value _ HS), E1, E2. reflexivity.
Qed.

(** ** Outside a drag *)

(** X3.  The pointer-up calls no setter and changes neither the store,
    the displayed offset nor the drag data; move events after it, and
    move events before the first pointer-down, change nothing at all. *)
Theorem release_ends_drag
    (s : SliderState) (sliderWidth width : Q) (es : list Event) (xs : list Q) :
  let w0 := mount s sliderWidth width in
  let w := run es w0 in
  let w' := dispatch MouseUp w in
  store w' = store w /\ left_state w' = left_state w /\
  dragData w' = dragData w /\ writes w' = writes w /\
  run (map MouseMove xs) w' = w' /\
  run (map MouseMove xs) w0 = w0.
Proof.
  intros w0 w w'.
  destruct (run_listeners es w0 eq_refl) as [Hp _]. fold w in Hp.
  assert (E : mousemove w' = []).
  { unfold w'. cbn [dispatch]. rewrite fold_drop. cbn. now apply remaining_all. }
  unfold w' at 1 2 3 4. cbn [dispatch]. rewrite fold_drop. cbn.
  repeat split; now apply run_moves_idle.
Qed.

(** X4.  Before [initialize] has run, the drag data have no property: a
    pointer-down followed by a move then passes [NaN] to [setValue] and
    to [setLeft], whatever the store and the pointer positions are. *)
Theorem drag_before_initialize (s : SliderState) (x0 x1 : Q) :
  let w := run [MouseDown x0; MouseMove x1] (first_render s) in
  writes w = [SetValue NaN; SetLeft NaN] /\
  value (store w) = NaN /\ left_state w = NaN.
Proof. repeat split. Qed.

(** ** A thumb as wide as the track *)

Lemma drag_noop_at_clamp (c : num) (l m o x : Q) (w : World) :
  dd_left (dragData w) = Some (Fin l) ->
  dd_max (dragData w) = Some (Fin m) ->
  dd_offset (dragData w) = Some (Fin o) ->
  l == clamp m (x + o) ->
  drag c x w = w.
Proof.
  intros Hl Hm Ho E. unfold drag. rewrite Hl, Hm, Ho.
  cbn [to_num add JS.min JS.max strict_neq strict_eq].
  fold (clamp m (x + o)). now rewrite (Qeq_eq_bool _ _ E).
Qed.

Lemma remaining_nil (ids : list nat) : remaining ids [] = [].
Proof. apply remaining_all. intros c []. Qed.

Lemma Stuck_mount (M v sliderWidth width : Q) :
  ~ M == 0 -> sliderWidth - width == 0 ->
  Stuck (mount {| maxValue := Fin M; value := Fin v |} sliderWidth width).
Proof.
  intros HM Hm. unfold mount, initialize.
  cbn [first_render store value maxValue sub neg add mul].
  rewrite (div_Fin _ _ HM). constructor; cbn.
  - eexists. split; [reflexivity|]. rewrite Hm. field. exact HM.
  - eexists. split; [reflexivity | exact Hm].
  - now right.
Qed.

Lemma dispatch_Stuck (e : Event) (w : World) :
  Stuck w ->
  Stuck (dispatch e w) /\
  store (dispatch e w) = store w /\
  left_state (dispatch e w) = left_state w /\
  writes (dispatch e w) = writes w.
Proof.
  intros [(l & Hl & El) (m & Hm & Em) Ho]. destruct e as [x | x |]; cbn [dispatch].
  - split; [|repeat split]. constructor; cbn.
    + now exists l.
    + now exists m.
    + left. rewrite Hl. cbn. now eexists.
  - assert (E : fold_left (fun w c => drag (captured_maxValue c) x w) (mousemove w) w = w).
    { destruct Ho as [[o Ho] | ->]; [|reflexivity].
      induction (mousemove w) as [|c cs IH]; [reflexivity|]. cbn [fold_left].
      rewrite (drag_noop_at_clamp _ l m o x w Hl Hm Ho); [exact IH|].
      rewrite El. symmetry. apply clamp_negative_travel. rewrite Em. apply Qle_refl. }
    rewrite E. split; [|repeat split]. constructor; [now exists l | now exists m | exact Ho].
  - rewrite fold_drop. split; [|repeat split]. constructor; cbn.
    + now exists l.
    + now exists m.
    + destruct Ho as [Ho | ->]; [now left | right; apply remaining_nil].
Qed.

(** X5.  When the thumb is exactly as wide as the track, on a store
    with finite numbers and a [maxValue] other than zero, the thumb is
    mounted at offset 0 and no sequence of pointer events calls a setter
    or changes the store or the displayed offset: [drag] never divides
    by the travel 0. *)
Theorem zero_travel (M v sliderWidth width : Q) (es : list Event) :
  ~ M == 0 -> sliderWidth - width == 0 ->
  let w0 := mount {| maxValue := Fin M; value := Fin v |} sliderWidth width in
  let w := run es w0 in
  is_num 0 (left_state w0) /\
  store w = store w0 /\ left_state w = left_state w0 /\ writes w = writes w0.
Proof.
  intros HM Hm w0 w.
  pose proof (Stuck_mount M v sliderWidth width HM Hm) as HS. fold w0 in HS.
  split.
  - unfold w0, mount, initialize.
    cbn [first_render store value maxValue sub neg add mul].
    rewrite (div_Fin _ _ HM). cbn. eexists. split; [reflexivity|].
    rewrite Hm. field. exact HM.
  - unfold w. clearbody w0. clear w. revert w0 HS.
    induction es as [|e es IH]; intros w0 HS; [repeat split|].
    cbn [run fold_left]. fold (run es (dispatch e w0)).
    destruct (dispatch_Stuck e w0 HS) as (HS' & E1 & E2 & E3).
    destruct (IH _ HS') as (F1 & F2 & F3). repeat split; congruence.
Qed.

(** The application with a thumb of the width of the track. *)
Lemma zero_travel_witness :
  let w0 := App 32 32 in
  let w := run [MouseDown 5; MouseMove 40; MouseUp; MouseMove 7] w0 in
  is_num 0 (left_state w0) /\
  store w = store w0 /\ left_state w = left_state w0 /\ writes w = writes w0.
Proof.
  apply (zero_travel 100 50 32 32 [MouseDown 5; MouseMove 40; MouseUp; MouseMove 7]).
  - discriminate.
  - reflexivity.
Defined.

(** ** The thumb during a drag *)

Lemma clamp_comp (m c c' : Q) : c == c' -> clamp m c == clamp m c'.
Proof.
  intros E. apply Qle_antisym; apply clamp_mono; rewrite E; apply Qle_refl.
Qed.

Lemma clamp_id (m c : Q) : 0 <= c <= m -> clamp m c == c.
Proof.
  intros [H0 H1]. unfold clamp. rewrite (Q.min_l _ _ H1). now apply Q.max_r.
Qed.

Lemma offset_bounds (M m v : Q) :
  0 < M -> 0 < m -> 0 <= v <= M -> 0 <= m * v / M <= m.
Proof.
  intros HM Hm Hv.
  assert (E : m * v / M == v / M * m) by (field; lra).
  rewrite E. apply scaled_bounds; [exact HM | now apply Qlt_le_weak | exact Hv].
Qed.

(** The three ways a move event can go. *)
Lemma dispatch_move_cases (M m : Q) (Vok : Q -> Prop) (w : World) (o x : Q) :
  ~ M == 0 -> ~ m == 0 ->
  (forall o x, Vok (inject_Z (value_at M m o x))) ->
  Inv M m Vok w -> dd_offset (dragData w) = Some (Fin o) ->
  (at_clamp m o x w /\ dispatch (MouseMove x) w = w) \/
  (mousemove w = [] /\ dispatch (MouseMove x) w = w) \/
  (~ at_clamp m o x w /\
   exists k, (0 < k)%nat /\ dispatch (MouseMove x) w = updates M m k o x w).
Proof.
  intros HM Hm HV HI Ho.
  destruct (inv_sync _ _ _ _ HI) as (v & l & _ & _ & Hl & _ & _).
  destruct (Qeq_dec l (clamp m (x + o))) as [E | E].
  - left. split; [now exists l|]. cbn [dispatch].
    induction (mousemove w) as [|c cs IH]; [reflexivity|]. cbn [fold_left].
    now rewrite (drag_noop_at_clamp _ l m o x w Hl (inv_max _ _ _ _ HI) Ho E).
  - right. destruct (dispatch_move M m Vok HM Hm HV w o x HI Ho) as (k & _ & Ek & Hk).
    assert (Hat : ~ at_clamp m o x w).
    { intros (l' & Hl' & E'). rewrite Hl in Hl'. injection Hl' as <-. contradiction. }
    destruct k as [|k].
    + left. destruct (Hk eq_refl) as [Hnil | ?]; [|contradiction].
      split; [exact Hnil | exact Ek].
    + right. split; [exact Hat|]. exists (S k). split; [lia | exact Ek].
Qed.



(** X10.  With a [maxValue] and a travel other than zero, a move event
    at the position of the one before it changes neither the store, the
    displayed offset nor the drag data, whether or not it calls the
    setters again. *)
Theorem repeated_move_same_state
    (M v sliderWidth width x : Q) (es : list Event) :
  ~ M == 0 -> ~ sliderWidth - width == 0 ->
  let w := run es (mount {| maxValue := Fin M; value := Fin v |} sliderWidth width) in
  let w1 := dispatch (MouseMove x) w in
  let w2 := dispatch (MouseMove x) w1 in
  store w2 = store w1 /\ left_state w2 = left_state w1 /\ dragData w2 = dragData w1.
Proof.
  intros HM Hm w w1 w2. set (m := sliderWidth - width) in *.
  assert (HI : Inv M m (fun _ => True) w).
  { apply run_Inv; auto.
    apply (Inv_mount M m _ HM _ v sliderWidth width); auto. }
  destruct (inv_offset _ _ _ _ HI) as [[o Ho] | Hnil].
  2: { unfold w2, w1. now rewrite !(dispatch_move_idle w x Hnil). }
  destruct (dispatch_move_cases M m _ w o x HM Hm (fun _ _ => I) HI Ho)
    as [[_ E] | [[_ E] | [_ (k & Hk & E)]]].
  1, 2: unfold w2, w1; now rewrite !E.
  assert (HI1 : Inv M m (fun _ => True) w1) by (apply dispatch_Inv; auto).
  pose proof (updates_frame M m k o x w) as (F1 & _).
  assert (Ho1 : dd_offset (dragData w1) = Some (Fin o)).
  { unfold w1. rewrite E. now rewrite F1. }
  destruct (updates_last M m k o x w Hk) as (Hv1 & Hs1 & Hl1).
  fold w1 in E. rewrite <- E in Hv1, Hs1, Hl1.
  destruct (dispatch_move M m _ HM Hm (fun _ _ => I) w1 o x HI1 Ho1) as (k' & _ & E' & _).
  fold w2 in E'. destruct k' as [|k']; [now rewrite E'|].
  destruct (updates_last M m (S k') o x w1 ltac:(lia)) as (Hv2 & Hs2 & Hl2).
  pose proof (updates_frame M m (S k') o x w1) as (G1 & G2 & G3 & _).
  rewrite <- E' in Hv2, Hs2, Hl2, G1, G2, G3.
  split; [|split].
  - destruct (store w2), (store w1). cbn in *. congruence.
  - congruence.
  - destruct (dragData w2), (dragData w1). cbn in *. congruence.
Qed.

(** Two moves to 100 on the scenario slider. *)
Lemma repeated_move_same_state_witness :
  let w := run [MouseDown 144] (App 320 32) in
  let w1 := dispatch (MouseMove 100) w in
  let w2 := dispatch (MouseMove 100) w1 in
  store w2 = store w1 /\ left_state w2 = left_state w1 /\ dragData w2 = dragData w1.
Proof.
  apply (repeated_move_same_state 100 50 320 32 100 [MouseDown 144]); discriminate.
Defined.

(** * The slider without a store *)

(** The state after an update by [Plain.drag]: the offset [c] recorded
    and displayed. *)
Lemma plain_drag_eval (w : Plain.World) (l m o x : Q) :
  Plain.dragData w = {| dd_left := Some (Fin l);
                        dd_max := Some (Fin m);
                        dd_offset := Some (Fin o) |} ->
  Plain.drag x w =
    if Qeq_bool l (clamp m (x + o)) then w
    else {| Plain.left_state := Fin (clamp m (x + o));
            Plain.dragData := {| dd_left := Some (Fin (clamp m (x + o)));
                                 dd_max := Some (Fin m);
                                 dd_offset := Some (Fin o) |};
            Plain.mousemove := Plain.mousemove w;
            Plain.mouseup := Plain.mouseup w;
            Plain.fresh := Plain.fresh w;
            Plain.writes := Plain.writes w ++ [Fin (clamp m (x + o))] |}.
Proof.
  intros H. unfold Plain.drag. rewrite H.
  cbn [dd_left dd_max dd_offset to_num add JS.min JS.max strict_neq strict_eq].
  fold (clamp m (x + o)). now destruct (Qeq_bool l (clamp m (x + o))).
Qed.

Lemma plain_fold_noop (w : Plain.World) (l m o x : Q) (cs : list nat) :
  Plain.dragData w = {| dd_left := Some (Fin l);
                        dd_max := Some (Fin m);
                        dd_offset := Some (Fin o) |} ->
  l == clamp m (x + o) ->
  fold_left (fun w _ => Plain.drag x w) cs w = w.
Proof.
  intros H E. induction cs as [|c cs IH]; [reflexivity|]. cbn [fold_left].
  rewrite (plain_drag_eval w l m o x H), (Qeq_eq_bool _ _ E). exact IH.
Qed.

(** However many listeners run, one move event updates at most once. *)
Lemma plain_fold_drag (w : Plain.World) (l m o x : Q) (cs : list nat) :
  Plain.dragData w = {| dd_left := Some (Fin l);
                        dd_max := Some (Fin m);
                        dd_offset := Some (Fin o) |} ->
  cs <> [] ->
  fold_left (fun w _ => Plain.drag x w) cs w = Plain.drag x w.
Proof.
  intros H Hcs. destruct cs as [|c cs]; [contradiction|]. cbn [fold_left].
  rewrite (plain_drag_eval w l m o x H).
  destruct (Qeq_bool l (clamp m (x + o))) eqn:E.
  - apply (plain_fold_noop w l m o x cs H). now apply Qeq_bool_eq.
  - eapply plain_fold_noop; [reflexivity | apply Qeq_refl].
Qed.

Lemma plain_fold_drop (ids : list nat) (w : Plain.World) :
  fold_left (fun w id => Plain.drop id w) ids w
  = {| Plain.left_state := Plain.left_state w;
       Plain.dragData := Plain.dragData w;
       Plain.mousemove :=
         fold_left (fun cs id => filter (fun c => negb (Nat.eqb c id)) cs)
                   ids (Plain.mousemove w);
       Plain.mouseup := Plain.mouseup w;
       Plain.fresh := Plain.fresh w;
       Plain.writes := Plain.writes w |}.
Proof.
  revert w. induction ids as [|id ids IH]; intros w; cbn [fold_left].
  - now destruct w.
  - rewrite IH. reflexivity.
Qed.

Lemma plain_In_remaining (ids cs : list nat) (c : nat) :
  In c (fold_left (fun cs id => filter (fun c => negb (Nat.eqb c id)) cs) ids cs)
  <-> In c cs /\ ~ In c ids.
Proof.
  revert cs. induction ids as [|id ids IH]; intros cs; cbn [fold_left].
  - cbn. tauto.
  - rewrite IH, filter_In, negb_true_iff, Nat.eqb_neq. cbn. intuition congruence.
Qed.

Lemma plain_dispatch_up (w : Plain.World) :
  (forall c, In c (Plain.mousemove w) -> In c (Plain.mouseup w)) ->
  Plain.dispatch Plain.MouseUp w
  = {| Plain.left_state := Plain.left_state w;
       Plain.dragData := Plain.dragData w;
       Plain.mousemove := [];
       Plain.mouseup := [];
       Plain.fresh := Plain.fresh w;
       Plain.writes := Plain.writes w |}.
Proof.
  intros Hp. cbn [Plain.dispatch]. rewrite plain_fold_drop. cbn. f_equal.
  match goal with |- ?r = [] => destruct r as [|c r'] eqn:E end; [reflexivity|].
  assert (Hc : In c (c :: r')) by now left.
  rewrite <- E in Hc. apply plain_In_remaining in Hc. destruct Hc as [Hc Hn].
  now apply Hp in Hc.
Qed.

Lemma plain_drag_frame (x : Q) (w : Plain.World) :
  Plain.mousemove (Plain.drag x w) = Plain.mousemove w /\
  Plain.mouseup (Plain.drag x w) = Plain.mouseup w.
Proof. unfold Plain.drag. now destruct (strict_neq _ _). Qed.

Lemma plain_drag_Measured (x : Q) (w : Plain.World) :
  Plain.Measured w -> Plain.Measured (Plain.drag x w).
Proof.
  intros [(l & m & o & Hd) Hp].
  destruct (plain_drag_frame x w) as [E1 E2].
  constructor; [|now rewrite E1, E2].
  rewrite (plain_drag_eval w l m o x Hd).
  destruct (Qeq_bool _ _); [now exists l, m, o | cbn; now do 3 eexists].
Qed.

Lemma plain_drops (w : Plain.World) :
  Plain.mousemove w = [] \/ Plain.Measured w ->
  forall c, In c (Plain.mousemove w) -> In c (Plain.mouseup w).
Proof.
  intros [Hnil | HM] c Hc; [now rewrite Hnil in Hc | now apply (Plain.measured_drops _ HM)].
Qed.

Lemma plain_dispatch_Measured (e : Plain.Event) (w : Plain.World) :
  Plain.mousemove w = [] \/ Plain.Measured w ->
  Plain.mousemove (Plain.dispatch e w) = [] \/ Plain.Measured (Plain.dispatch e w).
Proof.
  intros Hw. pose proof (plain_drops w Hw) as Hp. destruct e as [x g | x |].
  - right. constructor.
    + cbn. now do 3 eexists.
    + intros c Hc. cbn in Hc |- *. apply in_app_or in Hc. apply in_or_app.
      destruct Hc as [Hc | Hc]; [left; now apply Hp | now right].
  - destruct Hw as [Hnil | HM].
    + left. cbn [Plain.dispatch]. now rewrite Hnil.
    + right. cbn [Plain.dispatch]. clear Hp.
      generalize (Plain.mousemove w) as cs. intros cs. revert w HM.
      induction cs as [|c cs IH]; intros w HM; [exact HM|].
      cbn [fold_left]. apply IH. now apply plain_drag_Measured.
  - left. now rewrite (plain_dispatch_up w Hp).
Qed.

(** Once the thumb has been pressed, the drag data are finite numbers;
    before that, no listener is registered. *)
Lemma plain_run_Measured (es : list Plain.Event) (w : Plain.World) :
  Plain.mousemove w = [] \/ Plain.Measured w ->
  Plain.mousemove (Plain.run es w) = [] \/ Plain.Measured (Plain.run es w).
Proof.
  revert w. induction es as [|e es IH]; intros w Hw; [exact Hw|].
  cbn [Plain.run fold_left]. apply IH. now apply plain_dispatch_Measured.
Qed.



Example plain_two_listeners_one_update :
  let g := Plain.mkMeasure 10 320 154 32 in
  let w := Plain.run [Plain.MouseDown 160 g; Plain.MouseDown 160 g] Plain.first_render in
  length (Plain.mousemove w) = 2%nat /\
  length (Plain.writes (Plain.dispatch (Plain.MouseMove 180) w)) = 1%nat.
Proof. split; reflexivity. Qed.

(** X13.  In the slider without a store, a move event at the position
    of the one before it changes nothing and calls no setter, after any
    history of events. *)
Theorem plain_repeated_move_noop (es : list Plain.Event) (x : Q) :
  let w := Plain.run es Plain.first_render in
  let w1 := Plain.dispatch (Plain.MouseMove x) w in
  Plain.dispatch (Plain.MouseMove x) w1 = w1.
Proof.
  intros w w1.
  destruct (plain_run_Measured es Plain.first_render (or_introl eq_refl))
    as [Hnil | [(l & m & o & Hd) _]]; fold w in Hnil || fold w in Hd.
  - assert (E : w1 = w) by (unfold w1; cbn [Plain.dispatch]; now rewrite Hnil).
    rewrite E. cbn [Plain.dispatch]. now rewrite Hnil.
  - destruct (Plain.mousemove w) as [|c cs] eqn:Ecs.
    + assert (E : w1 = w) by (unfold w1; cbn [Plain.dispatch]; now rewrite Ecs).
      rewrite E. cbn [Plain.dispatch]. now rewrite Ecs.
    + assert (E : w1 = Plain.drag x w).
      { unfold w1. cbn [Plain.dispatch]. rewrite Ecs.
        apply (plain_fold_drag w l m o x (c :: cs) Hd). discriminate. }
      rewrite E. rewrite (plain_drag_eval w l m o x Hd).
      destruct (Qeq_bool l (clamp m (x + o))) eqn:Eb; cbn [Plain.dispatch].
      * apply (plain_fold_noop w l m o x _ Hd). now apply Qeq_bool_eq.
      * eapply plain_fold_noop; [reflexivity | apply Qeq_refl].
Qed.


(** X16.  In the slider without a store, the pointer-up leaves no
    listener, calls no setter and keeps the displayed offset and the
    drag data; move events after it change nothing. *)
Theorem plain_release_ends_drag (es : list Plain.Event) (xs : list Q) :
  let w := Plain.run es Plain.first_render in
  let w' := Plain.dispatch Plain.MouseUp w in
  Plain.mousemove w' = [] /\
  Plain.left_state w' = Plain.left_state w /\
  Plain.dragData w' = Plain.dragData w /\
  Plain.writes w' = Plain.writes w /\
  Plain.run (map Plain.MouseMove xs) w' = w'.
Proof.
  intros w w'.
  pose proof (plain_drops w (plain_run_Measured es Plain.first_render
                                                (or_introl eq_refl))) as Hp.
  unfold w'. rewrite (plain_dispatch_up w Hp). cbn. repeat split.
  induction xs as [|x xs IH]; [reflexivity | exact IH].
Qed.

(** * What is shown *)

Lemma drag_shape (c : num) (x : Q) (w : World) :
  drag c x w = w \/
  exists v n, value (store (drag c x w)) = v /\ left_state (drag c x w) = n /\
              writes (drag c x w) = writes w ++ [SetValue v; SetLeft n].
Proof.
  unfold drag. destruct (strict_neq _ _); [right | now left].
  do 2 eexists. cbn. rewrite <- app_assoc. repeat split.
Qed.

Lemma dispatch_shown (v0 : num) (e : Event) (w : World) :
  value (store w) = last (emitted (writes w)) v0 /\
  left_state w = last (displayed (writes w)) (Fin 0) ->
  value (store (dispatch e w)) = last (emitted (writes (dispatch e w))) v0 /\
  left_state (dispatch e w) = last (displayed (writes (dispatch e w))) (Fin 0).
Proof.
  destruct e as [x | x |]; cbn [dispatch].
  - trivial.
  - generalize (mousemove w) as cs. intros cs. revert w.
    induction cs as [|c cs IH]; intros w H; [exact H|].
    cbn [fold_left]. apply IH.
    destruct (drag_shape (captured_maxValue c) x w) as [-> | (v & n & -> & -> & ->)];
      [exact H|].
    rewrite emitted_app, displayed_app. cbn [emitted displayed].
    now rewrite !last_last.
  - rewrite fold_drop. trivial.
Qed.

(** X17.  After mounting and after every sequence of pointer events, the
    heading shows the value last passed to [setValue], or the value the
    store was created with when there was none, and the thumb is drawn
    at the offset last passed to [setLeft]. *)
Theorem views_show_last_writes
    (s : SliderState) (sliderWidth width : Q) (es : list Event) :
  let w := run es (mount s sliderWidth width) in
  Header (provide (store w)) = last (emitted (writes w)) (value s) /\
  left_state w = last (displayed (writes w)) (Fin 0).
Proof.
  intros w. unfold Header, provide, ctx_value.
  assert (H : forall w0,
             value (store w0) = last (emitted (writes w0)) (value s) /\
             left_state w0 = last (displayed (writes w0)) (Fin 0) ->
             value (store (run es w0)) = last (emitted (writes (run es w0))) (value s) /\
             left_state (run es w0) = last (displayed (writes (run es w0))) (Fin 0)).
  { induction es as [|e es IH]; intros w0 H0; [exact H0|].
    cbn [run fold_left]. apply IH. now apply dispatch_shown. }
  apply H. split; reflexivity.
Qed.

(** * The slider in binary64 *)

(** ** The two arithmetics *)

(** The definitions over exact numbers are the slider over the exact
    operators. *)
Lemma exact_drag (c : num) (x : Q) (w : World) :
  Slider.drag Arith.exact c x w = drag c x w.
Proof. reflexivity. Qed.

Lemma exact_run (es : list Event) (w : World) :
  Slider.run Arith.exact es w = run es w.
Proof. reflexivity. Qed.

Lemma exact_mount (s : SliderState) (sliderWidth width : Q) :
  Slider.mount Arith.exact s sliderWidth width = mount s sliderWidth width.
Proof. reflexivity. Qed.

(** Rounding at work: 1/10 and 100.8 are no doubles, a tie goes to
    the even significand, the smallest subnormal is 2^-1074, and the
    largest double is followed by [Infinity]. *)
Example fl_tenth : B64.fl (1 # 10) = Fin (3602879701896397 # 36028797018963968).
Proof. vm_compute. reflexivity. Qed.

Example fl_1008 : B64.fl (1008 # 10) = Fin (7093169413108531 # 70368744177664).
Proof. vm_compute. reflexivity. Qed.

Example fl_ties :
  B64.fl (inject_Z (2 ^ 53 + 1)) = Fin (inject_Z (2 ^ 53)) /\
  B64.fl (inject_Z (2 ^ 53 + 3)) = Fin (inject_Z (2 ^ 53 + 4)).
Proof. split; vm_compute; reflexivity. Qed.

Example fl_subnormal :
  B64.fl (B64.pow2 (-1075)) = Fin 0 /\
  B64.fl ((3 # 2) * B64.pow2 (-1074)) = Fin (Qred (2 * B64.pow2 (-1074))).
Proof. split; vm_compute; reflexivity. Qed.

Example fl_overflow :
  B64.fl (B64.pow2 1024 - B64.pow2 971) = Fin (Qred (B64.pow2 1024 - B64.pow2 971)) /\
  B64.fl (B64.pow2 1024 - B64.pow2 970) = PInf /\
  B64.fl (- B64.pow2 1024) = NInf.
Proof. repeat split; vm_compute; reflexivity. Qed.

(** The subtraction that [startDrag] makes and the addition that [drag]
    makes do not cancel: [500 + (100.8 - 500)] is the double after
    100.8. *)
Example press_at_500 :
  let l := 7093169413108531 # 70368744177664 in
  B64.add (Fin 500) (B64.sub (Fin l) (Fin 500))
  = Fin (Qred (7093169413108532 # 70368744177664)) /\
  strict_eq (B64.add (Fin 500) (B64.sub (Fin l) (Fin 500))) (Fin l) = false.
Proof. split; vm_compute; reflexivity. Qed.

(** Rounding sees the number, not the fraction that denotes it. *)
Lemma fl_comp (q q' : Q) : q == q' -> B64.fl q = B64.fl q'.
Proof. intros E. unfold B64.fl. now rewrite (Qred_complete _ _ E). Qed.

Lemma fl_pos_not_NaN (a : Q) : B64.fl_pos a <> NaN.
Proof. unfold B64.fl_pos. now destruct (Qle_bool _ _). Qed.

(** Rounding gives a double or an infinity. *)
Lemma fl_not_NaN (q : Q) : B64.fl q <> NaN.
Proof.
  unfold B64.fl. destruct (Qcompare (Qred q) 0); [discriminate | |].
  - pose proof (fl_pos_not_NaN (- Qred q)) as H.
    now destruct (B64.fl_pos (- Qred q)).
  - apply fl_pos_not_NaN.
Qed.

Lemma fl_zero (q : Q) : q == 0 -> B64.fl q = Fin 0.
Proof. intros E. now rewrite (fl_comp _ _ E). Qed.

Lemma fl_one (q : Q) : q == 1 -> B64.fl q = Fin 1.
Proof. intros E. now rewrite (fl_comp _ _ E). Qed.

Lemma B64_div_Fin (x y : Q) : ~ y == 0 -> B64.div (Fin x) (Fin y) = B64.fl (x / y).
Proof. intros H. unfold B64.div. now rewrite (Qeq_bool_false _ _ H). Qed.

(** The clamp of a candidate that rounding produced. *)
Lemma clamp_rounded (m : Q) (c : num) :
  0 <= m -> c <> NaN ->
  exists n, JS.max (Fin 0) (JS.min c (Fin m)) = Fin n /\ 0 <= n <= m /\
            (at_most_zero c -> n == 0) /\ (at_least m c -> n == m).
Proof.
  intros Hm Hc. destruct c as [q | | |]; [| | |contradiction].
  - exists (clamp m q). split; [reflexivity|]. split; [now apply clamp_bounds|]. split.
    + intros [? | (q' & E & Hq)]; [discriminate|]. injection E as <-.
      now apply clamp_below.
    + intros [? | (q' & E & Hq)]; [discriminate|]. injection E as <-.
      now apply clamp_above.
  - exists (Qmax 0 m). split; [reflexivity|].
    assert (E : Qmax 0 m == m) by now apply Q.max_r.
    split; [rewrite E; split; [exact Hm | apply Qle_refl]|]. split.
    + intros [? | (q' & ? & _)]; discriminate.
    + intros _. exact E.
  - exists 0. split; [reflexivity|]. split; [split; [apply Qle_refl | exact Hm]|]. split.
    + intros _. reflexivity.
    + intros [? | (q' & ? & _)]; discriminate.
Qed.

(** One call of [drag] in binary64 with finite drag data. *)
Lemma drag_binary64_eval (w : World) (c : num) (l m o x n : Q) :
  dd_left (dragData w) = Some (Fin l) ->
  dd_max (dragData w) = Some (Fin m) ->
  dd_offset (dragData w) = Some (Fin o) ->
  JS.max (Fin 0) (JS.min (B64.add (Fin x) (Fin o)) (Fin m)) = Fin n ->
  Slider.drag B64.arith c x w =
    if Qeq_bool l n then w
    else updated w (round (B64.mul (B64.div (Fin n) (Fin m)) c))
                   (B64.div (B64.mul (Fin m)
                               (round (B64.mul (B64.div (Fin n) (Fin m)) c))) c).
Proof.
  intros Hl Hm Ho Hn. unfold Slider.drag. rewrite Hl, Hm, Ho.
  cbn [to_num Arith.add Arith.mul Arith.div B64.arith]. rewrite Hn.
  cbn [strict_neq strict_eq]. destruct (Qeq_bool l n); cbn [negb]; [reflexivity|].
  unfold updated, setLeft, set_dragData, call_setValue; cbn.
  rewrite Hm, Ho. now rewrite <- app_assoc.
Qed.

(** ** The drag handler in binary64 *)

(** C1.  On a move event with finite drag data and a positive travel
    [max], [drag] computes the candidate [pageX + offset] as a double
    (or an infinity), clamps it to the interval from 0 to [max], and
    does nothing when the clamped offset [next] is the recorded one;
    otherwise it derives the value [round((next / max) * maxValue)],
    the quotient and the product being rounded to doubles, snaps the
    offset to [(max * value) / maxValue], rounded likewise, writes the
    value to the store with [setValue] and the snapped offset to the
    display state with [setLeft] (and to [dragData.current.left]). *)
Theorem drag_computes_binary64 (w : World) (M l m o x : Q) :
  dd_left (dragData w) = Some (Fin l) ->
  dd_max (dragData w) = Some (Fin m) ->
  dd_offset (dragData w) = Some (Fin o) ->
  0 < m ->
  let candidate := B64.add (Fin x) (Fin o) in
  let nextLeft := JS.max (Fin 0) (JS.min candidate (Fin m)) in
  let w' := Slider.drag B64.arith (Fin M) x w in
  candidate = B64.fl (x + o) /\
  exists n,
    nextLeft = Fin n /\ 0 <= n <= m /\
    (n == l -> w' = w) /\
    (~ n == l ->
     let v := round (B64.mul (B64.div (Fin n) (Fin m)) (Fin M)) in
     let snapped := B64.div (B64.mul (Fin m) v) (Fin M) in
     B64.div (Fin n) (Fin m) = B64.fl (n / m) /\
     w' = updated w v snapped /\
     value (store w') = v /\
     left_state w' = snapped /\
     writes w' = writes w ++ [SetValue v; SetLeft snapped]).
Proof.
  intros Hl Hm Ho Hpos candidate nextLeft w'. split; [reflexivity|].
  destruct (clamp_rounded m candidate (Qlt_le_weak _ _ Hpos) (fl_not_NaN (x + o)))
    as (n & Hn & Hb & _).
  exists n. split; [exact Hn|]. split; [exact Hb|].
  unfold w'. rewrite (drag_binary64_eval w (Fin M) l m o x n Hl Hm Ho Hn). split.
  - intros E. now rewrite (Qeq_eq_bool l n) by (symmetry; exact E).
  - intros Hne. cbv zeta.
    rewrite Qeq_bool_false by (intros H; apply Hne; symmetry; exact H).
    split; [apply B64_div_Fin; lra|]. repeat split.
Qed.

(** The application on a track of width 232 with a thumb of width 32,
    pressed at 100 where the pointer offset is 0, and a move to 29: the
    quotient 29/200 is rounded below 0.145, the product below 14.5, and
    [drag] writes the value 14 and the offset 28. *)
Lemma drag_computes_binary64_witness :
  let w := Slider.run B64.arith [MouseDown 100] (Slider.App B64.arith 232 32) in
  Slider.drag B64.arith (Fin 100) 29 w = updated w (Fin 14) (Fin 28).
Proof.
  intros w.
  destruct (drag_computes_binary64 w 100 100 200 0 29 eq_refl eq_refl eq_refl eq_refl)
    as (_ & n & Hn & _ & _ & Hmove).
  injection Hn as <-.
  destruct Hmove as (_ & E & _); [discriminate|].
  exact E.
Defined.

(** ** The range of the stored value *)

(** C2, as the specification states it, fails for a [maxValue] that is
    no integer: on a store with [maxValue] 5/2 and the value 1, a drag
    to the right end of the track stores the value 3, with the exact
    operators and in binary64. *)
Lemma fractional_maxValue_out_of_range :
  let s := {| maxValue := Fin (5 # 2); value := Fin 1 |} in
  in_range (5 # 2) (value s) /\
  value (store (run [MouseDown 0; MouseMove 1000] (mount s 320 32))) = Fin 3 /\
  value (store (Slider.run B64.arith [MouseDown 0; MouseMove 1000]
                           (Slider.mount B64.arith s 320 32))) = Fin 3 /\
  ~ in_range (5 # 2) (Fin 3).
Proof.
  split; [|split; [|split]].
  - exists 1. split; [reflexivity | split; discriminate].
  - reflexivity.
  - vm_compute. reflexivity.
  - intros (v & E & _ & H). injection E as <-. now apply H.
Qed.

(** ** The ends of the track in binary64 *)

(** C6, as the specification states it, fails for a [maxValue] that is
    no integer: with [maxValue] 5/2, which is a double, a candidate
    offset beyond the travel emits the value 3, not [maxValue]. *)
Lemma fractional_maxValue_overshoots :
  let s := {| maxValue := Fin (5 # 2); value := Fin 1 |} in
  let w := Slider.run B64.arith [MouseDown 0] (Slider.mount B64.arith s 320 32) in
  B64.fl (5 # 2) = Fin (5 # 2) /\
  dd_max (dragData w) = Some (Fin 288) /\
  at_least 288 (B64.add (Fin 1000) (to_num (dd_offset (dragData w)))) /\
  emitted (writes (Slider.dispatch B64.arith (MouseMove 1000) w))
  = emitted (writes w) ++ [Fin 3] /\
  strict_eq (Fin 3) (Fin (5 # 2)) = false.
Proof.
  split; [vm_compute; reflexivity|]. split; [vm_compute; reflexivity|].
  split; [|split; vm_compute; reflexivity].
  right. eexists. split; [vm_compute; reflexivity | discriminate].
Qed.

(** C6, amended.  In binary64, on a move event of a drag with finite
    drag data, a positive travel [max] and a positive integer
    [maxValue] that is a double: when the computed candidate offset is
    0 or less, [drag] does nothing if the thumb is recorded at 0 and
    else emits the value 0 and the offset 0; when it is [max] or more,
    [drag] does nothing if the thumb is recorded at [max] and else
    emits the value [maxValue], with the offset
    [(max * maxValue) / maxValue].  On the scenario slider (maxValue
    100, track 320, thumb 32), the candidate offset 288 gives value 100
    at offset 288, and the candidate offset -50 gives value 0. *)
Theorem boundary_clamp_binary64 :
  (forall (w : World) (Mz : Z) (l m o x : Q),
      dd_left (dragData w) = Some (Fin l) ->
      dd_max (dragData w) = Some (Fin m) ->
      dd_offset (dragData w) = Some (Fin o) ->
      0 < m -> (0 < Mz)%Z ->
      B64.fl (inject_Z Mz) = Fin (inject_Z Mz) ->
      let M := Fin (inject_Z Mz) in
      let candidate := B64.add (Fin x) (Fin o) in
      let w' := Slider.drag B64.arith M x w in
      (at_most_zero candidate ->
       (l == 0 /\ w' = w) \/
       (~ l == 0 /\ w' = updated w (Fin 0) (Fin 0))) /\
      (at_least m candidate ->
       (l == m /\ w' = w) \/
       (~ l == m /\ w' = updated w M (B64.div (B64.mul (Fin m) M) M)))) /\
  (let w := Slider.run B64.arith [MouseDown 200; MouseMove 344]
                       (Slider.App B64.arith 320 32) in
   B64.add (Fin 344) (to_num (dd_offset (dragData w))) = Fin 288 /\
   emitted (writes w) = [Fin 100] /\
   value (store w) = Fin 100 /\ left_state w = Fin 288) /\
  (let w := Slider.run B64.arith [MouseDown 200; MouseMove 6]
                       (Slider.App B64.arith 320 32) in
   B64.add (Fin 6) (to_num (dd_offset (dragData w))) = Fin (-50) /\
   emitted (writes w) = [Fin 0] /\
   value (store w) = Fin 0 /\ left_state w = Fin 0).
Proof.
  split; [|split; vm_compute; repeat split].
  intros w Mz l m o x Hl Hm Ho Hpos HMz HM M candidate w'.
  assert (Hm0 : ~ m == 0) by lra.
  assert (HM0 : ~ inject_Z Mz == 0).
  { intros E. unfold Qeq in E. cbn in E. lia. }
  destruct (clamp_rounded m candidate (Qlt_le_weak _ _ Hpos) (fl_not_NaN (x + o)))
    as (n & Hn & Hb & Hlow & Hhigh).
  unfold w'. rewrite (drag_binary64_eval w M l m o x n Hl Hm Ho Hn).
  split; intros Hc.
  - pose proof (Hlow Hc) as En.
    destruct (Qeq_bool l n) eqn:Eb.
    + left. apply Qeq_bool_eq in Eb. split; [now rewrite Eb | reflexivity].
    + right. split.
      * intros E. rewrite <- En in E. apply Qeq_eq_bool in E. congruence.
      * rewrite (B64_div_Fin n m Hm0).
        rewrite (fl_zero (n / m)) by (rewrite En; field; exact Hm0).
        unfold M. cbn [B64.mul].
        rewrite (fl_zero (0 * inject_Z Mz)) by ring. cbn [round].
        change (inject_Z (Qround 0)) with 0.
        rewrite (fl_zero (m * 0)) by ring.
        rewrite (B64_div_Fin 0 _ HM0), (fl_zero (0 / inject_Z Mz)) by (field; exact HM0).
        reflexivity.
  - pose proof (Hhigh Hc) as En.
    destruct (Qeq_bool l n) eqn:Eb.
    + left. apply Qeq_bool_eq in Eb. split; [now rewrite Eb | reflexivity].
    + right. split.
      * intros E. rewrite <- En in E. apply Qeq_eq_bool in E. congruence.
      * rewrite (B64_div_Fin n m Hm0).
        rewrite (fl_one (n / m)) by (rewrite En; field; exact Hm0).
        unfold M. cbn [B64.mul].
        rewrite (fl_comp (1 * inject_Z Mz) (inject_Z Mz)) by ring.
        rewrite HM. cbn [round]. rewrite Qround_inject_Z. reflexivity.
Qed.

(** The scenario slider in binary64 during a drag that was pressed at
    200, where the pointer offset is -56: a move to 0 and a move to 600. *)
Lemma boundary_clamp_binary64_witness :
  let w := Slider.run B64.arith [MouseDown 200] (Slider.App B64.arith 320 32) in
  Slider.drag B64.arith (Fin 100) 0 w = updated w (Fin 0) (Fin 0) /\
  Slider.drag B64.arith (Fin 100) 600 w
  = updated w (Fin 100) (B64.div (B64.mul (Fin 288) (Fin 100)) (Fin 100)).
Proof.
  intros w.
  destruct (proj1 boundary_clamp_binary64 w 100%Z 144 288 (-56) 0
                  eq_refl eq_refl eq_refl eq_refl eq_refl eq_refl) as [Hlow _].
  destruct (proj1 boundary_clamp_binary64 w 100%Z 144 288 (-56) 600
                  eq_refl eq_refl eq_refl eq_refl eq_refl eq_refl) as [_ Hhigh].
  split.
  - destruct Hlow as [[E _] | [_ E]]; [|discriminate | exact E].
    right. exists (-56). split; [reflexivity | discriminate].
  - destruct Hhigh as [[E _] | [_ E]]; [|discriminate | exact E].
    right. exists 544. split; [reflexivity | discriminate].
Defined.

(** ** The accuracy of rounding *)

Lemma pow2_pos (e : Z) : 0 < B64.pow2 e.
Proof. apply Qpower_0_lt. reflexivity. Qed.

Lemma pow2_plus (a b : Z) : B64.pow2 (a + b) == B64.pow2 a * B64.pow2 b.
Proof. apply Qpower_plus. discriminate. Qed.

Lemma pow2_succ (a : Z) : B64.pow2 (a + 1) == 2 * B64.pow2 a.
Proof. rewrite pow2_plus. change (B64.pow2 1) with 2. ring. Qed.

Lemma pow2_le (a b : Z) : (a <= b)%Z -> B64.pow2 a <= B64.pow2 b.
Proof. intros H. apply Qpower_le_compat_l; [exact H | discriminate]. Qed.

Lemma pow2_lt_inv (a b : Z) : B64.pow2 a < B64.pow2 b -> (a < b)%Z.
Proof. intros H. apply (Qpower_lt_compat_l_inv 2); [exact H | reflexivity]. Qed.

Lemma pow2_Z (e : Z) : (0 <= e)%Z -> inject_Z (2 ^ e) == B64.pow2 e.
Proof. intros H. now apply Zpower_Qpower. Qed.

(** The integer logarithm brackets its argument. *)
Lemma ilog2_spec (a : Q) :
  0 < a -> B64.pow2 (B64.ilog2 a) <= a < B64.pow2 (B64.ilog2 a + 1).
Proof.
  intros Ha. destruct a as [n d].
  assert (Hn : (0 < n)%Z) by (unfold Qlt in Ha; cbn in Ha; lia).
  unfold B64.ilog2. cbn [Qnum Qden].
  set (ln := Z.log2 n). set (ld := Z.log2 (Zpos d)).
  destruct (Z.log2_spec n Hn) as [Hn1 Hn2]. fold ln in Hn1, Hn2.
  destruct (Z.log2_spec (Zpos d) eq_refl) as [Hd1 Hd2]. fold ld in Hd1, Hd2.
  assert (Hln : (0 <= ln)%Z) by apply Z.log2_nonneg.
  assert (Hld : (0 <= ld)%Z) by apply Z.log2_nonneg.
  rewrite Zle_Qle, pow2_Z in Hn1, Hd1 by assumption.
  rewrite Zlt_Qlt, pow2_Z in Hn2, Hd2 by lia.
  unfold Z.succ in Hn2, Hd2. rewrite pow2_succ in Hn2, Hd2.
  set (N := inject_Z n) in *. set (D := inject_Z (Zpos d)) in *.
  pose proof (pow2_pos ln) as Hx. pose proof (pow2_pos ld) as Hy.
  pose proof (pow2_pos (ln - ld)) as Hp.
  assert (Ep : B64.pow2 (ln - ld) * B64.pow2 ld == B64.pow2 ln).
  { rewrite <- pow2_plus. now replace (ln - ld + ld)%Z with ln by ring. }
  assert (HD : 0 < D) by reflexivity.
  assert (Ea : (n # d) * D == N).
  { rewrite (Qmake_Qdiv n d). fold N D. field. lra. }
  set (a := n # d) in *.
  set (x := B64.pow2 ln) in *. set (y := B64.pow2 ld) in *.
  set (p := B64.pow2 (ln - ld)) in *.
  assert (Hup : a < 2 * p).
  { apply (Qmult_lt_r _ _ D HD). rewrite Ea.
    apply Qlt_le_trans with (2 * x); [exact Hn2|].
    rewrite <- Ep. nra. }
  assert (Hlow : p <= 2 * a).
  { apply (Qmult_le_r _ _ D HD).
    assert (E2 : 2 * a * D == 2 * N) by (rewrite <- Ea; ring).
    rewrite E2. apply Qle_trans with (2 * x); [|lra].
    rewrite <- Ep. nra. }
  destruct (Qle_bool p a) eqn:Eb.
  - apply Qle_bool_iff in Eb. split; [exact Eb|]. rewrite pow2_succ. exact Hup.
  - assert (Hlt : a < p).
    { apply Qnot_le_lt. intros H. apply Qle_bool_iff in H. congruence. }
    assert (Eq : p == 2 * B64.pow2 (ln - ld - 1)).
    { unfold p. rewrite <- pow2_succ. now replace (ln - ld - 1 + 1)%Z with (ln - ld)%Z by ring. }
    replace (ln - ld - 1 + 1)%Z with (ln - ld)%Z by ring. fold p.
    split; [lra | exact Hlt].
Qed.

(** The nearest integer is at distance 1/2 at most. *)
Lemma round_even_err (q : Q) :
  q - (1 # 2) <= inject_Z (B64.round_even q) <= q + (1 # 2).
Proof.
  pose proof (Qfloor_le q) as H1. pose proof (Qlt_floor q) as H2.
  rewrite inject_Z_plus in H2. change (inject_Z 1) with 1 in H2.
  unfold B64.round_even.
  destruct (Qcompare_spec (q - inject_Z (Qfloor q)) (1 # 2)) as [E | E | E].
  - destruct (Z.even (Qfloor q)).
    + split; lra.
    + rewrite inject_Z_plus. change (inject_Z 1) with 1. split; lra.
  - split; lra.
  - rewrite inject_Z_plus. change (inject_Z 1) with 1. split; lra.
Qed.

(** In the normal range, the double of a positive rational has a
    relative error of 2^-53 at most. *)
Lemma fl_pos_accurate (a : Q) :
  B64.pow2 (-1022) <= a -> a <= B64.pow2 1023 ->
  exists y, B64.fl_pos a = Fin y /\
            a * (1 - B64.pow2 (-53)) <= y <= a * (1 + B64.pow2 (-53)).
Proof.
  intros Hlo Hhi.
  assert (Ha : 0 < a) by (eapply Qlt_le_trans; [apply (pow2_pos (-1022)) | exact Hlo]).
  destruct (ilog2_spec a Ha) as [HL1 HL2].
  set (L := B64.ilog2 a) in *.
  assert (HL : (-1022 <= L)%Z).
  { assert (H : (-1022 < L + 1)%Z)
      by (apply pow2_lt_inv; eapply Qle_lt_trans; [exact Hlo | exact HL2]).
    lia. }
  unfold B64.fl_pos. fold L. rewrite Z.max_l by lia.
  set (e := (L - 52)%Z).
  pose proof (pow2_pos e) as He.
  pose proof (round_even_err (a / B64.pow2 e)) as [R1 R2].
  set (r := inject_Z (B64.round_even (a / B64.pow2 e))) in *.
  assert (Es : a / B64.pow2 e * B64.pow2 e == a) by (field; lra).
  set (s := a / B64.pow2 e) in *.
  assert (Ee : B64.pow2 e == 2 * (B64.pow2 L * B64.pow2 (-53))).
  { rewrite <- pow2_plus, <- pow2_succ. unfold e.
    now replace (L + -53 + 1)%Z with (L - 52)%Z by ring. }
  pose proof (pow2_pos (-53)) as Hu.
  assert (Hu1 : B64.pow2 (-53) < 1) by reflexivity.
  set (u := B64.pow2 (-53)) in *. set (pe := B64.pow2 e) in *.
  set (pL := B64.pow2 L) in *.
  assert (Hy1 : a * (1 - u) <= r * pe) by nra.
  assert (Hy2 : r * pe <= a * (1 + u)) by nra.
  assert (Hov : r * pe < B64.pow2 1024).
  { change (B64.pow2 1024) with (B64.pow2 (1023 + 1)). rewrite pow2_succ.
    pose proof (pow2_pos 1023). set (P := B64.pow2 1023) in *. nra. }
  destruct (Qle_bool (B64.pow2 1024) (r * pe)) eqn:Eb.
  - apply Qle_bool_iff in Eb. lra.
  - exists (Qred (r * pe)). split; [reflexivity|]. now rewrite Qred_correct.
Qed.

Lemma fl_accurate (q : Q) :
  B64.pow2 (-1022) <= q -> q <= B64.pow2 1023 ->
  exists y, B64.fl q = Fin y /\
            q * (1 - B64.pow2 (-53)) <= y <= q * (1 + B64.pow2 (-53)).
Proof.
  intros Hlo Hhi.
  assert (Hq : 0 < Qred q).
  { rewrite Qred_correct. eapply Qlt_le_trans; [apply (pow2_pos (-1022)) | exact Hlo]. }
  unfold B64.fl. rewrite (proj1 (Qgt_alt _ _) Hq).
  destruct (fl_pos_accurate (Qred q)) as (y & E & H1 & H2).
  - now rewrite Qred_correct.
  - now rewrite Qred_correct.
  - exists y. split; [exact E|]. rewrite Qred_correct in H1, H2. now split.
Qed.

Lemma ulo_pos : 0 < ulo.
Proof. reflexivity. Qed.

Lemma uhi_pos : 0 < uhi.
Proof. reflexivity. Qed.

(** A rounding of a number known up to the factors [a] and [b]. *)
Lemma within_fl (x a b y : Q) :
  0 < x -> 0 < a -> within x a b y ->
  B64.pow2 (-1022) <= x * a -> x * b <= B64.pow2 1023 ->
  exists p, B64.fl y = Fin p /\ within x (a * ulo) (b * uhi) p.
Proof.
  intros Hx Ha [H1 H2] Hlo Hhi.
  destruct (fl_accurate y) as (p & E & P1 & P2).
  - now apply Qle_trans with (x * a).
  - now apply Qle_trans with (x * b).
  - exists p. split; [exact E|]. fold ulo in P1. fold uhi in P2.
    pose proof ulo_pos. pose proof uhi_pos. split.
    + apply Qle_trans with (y * ulo); [|exact P1].
      rewrite Qmult_assoc. apply Qmult_le_compat_r; [exact H1 | now apply Qlt_le_weak].
    + apply Qle_trans with (y * uhi); [exact P2|].
      rewrite Qmult_assoc. apply Qmult_le_compat_r; [exact H2 | now apply Qlt_le_weak].
Qed.

Lemma within_scale (x a b y c : Q) :
  0 <= c -> within x a b y -> within (x * c) a b (y * c).
Proof.
  intros Hc [H1 H2]. split.
  - assert (E : x * c * a == x * a * c) by ring. rewrite E.
    now apply Qmult_le_compat_r.
  - assert (E : x * c * b == x * b * c) by ring. rewrite E.
    now apply Qmult_le_compat_r.
Qed.

Lemma within_comp (x x' a b y : Q) : x == x' -> within x a b y -> within x' a b y.
Proof. intros E [H1 H2]. split; rewrite <- E; assumption. Qed.

Lemma Qround_near (z : Z) (q : Q) :
  inject_Z z - (1 # 2) <= q -> q < inject_Z z + (1 # 2) -> Qround q = z.
Proof.
  intros H1 H2. unfold Qround.
  assert (Hlo : (z <= Qfloor (q + (1 # 2)))%Z).
  { rewrite <- (Qfloor_Z z) at 1. apply Qfloor_resp_le. lra. }
  assert (Hhi : (Qfloor (q + (1 # 2)) < z + 1)%Z).
  { rewrite Zlt_Qlt, inject_Z_plus. change (inject_Z 1) with 1.
    pose proof (Qfloor_le (q + (1 # 2))). lra. }
  lia.
Qed.

Lemma range_lo (k x a : Q) :
  B64.pow2 (-1022) <= k * a -> k <= x -> 0 <= a -> B64.pow2 (-1022) <= x * a.
Proof.
  intros H1 H2 Ha. apply Qle_trans with (k * a); [exact H1|].
  now apply Qmult_le_compat_r.
Qed.

Lemma range_hi (k x b : Q) :
  k * b <= B64.pow2 1023 -> x <= k -> 0 <= b -> x * b <= B64.pow2 1023.
Proof.
  intros H1 H2 Hb. apply Qle_trans with (k * b); [|exact H1].
  now apply Qmult_le_compat_r.
Qed.

(** The value of the offset of a value: four roundings, each within
    the factors [ulo] and [uhi], leave it within 1/2 of the value. *)
Lemma round_trip_value (m M : Q) (v : Z) :
  B64.pow2 (-500) <= m <= B64.pow2 500 -> M <= B64.pow2 500 ->
  (1 <= v)%Z -> inject_Z v <= M -> (v < 2 ^ 50)%Z ->
  round (B64.mul (B64.div (B64.div (B64.mul (Fin m) (Fin (inject_Z v))) (Fin M))
                          (Fin m)) (Fin M))
  = Fin (inject_Z v).
Proof.
  intros [Hm1 Hm2] HM2 Hv1 HvM Hv2.
  set (V := inject_Z v) in *.
  set (A := B64.pow2 (-500)) in *. set (Bm := B64.pow2 500) in *.
  set (Cm := inject_Z (2 ^ 50 - 1)).
  assert (HA : 0 < A) by apply pow2_pos.
  assert (HB : 0 < Bm) by apply pow2_pos.
  assert (HV1 : 1 <= V) by (unfold V; change 1 with (inject_Z 1); rewrite <- Zle_Qle; lia).
  assert (HVC : V <= Cm) by (unfold V, Cm; rewrite <- Zle_Qle; lia).
  assert (Hm : 0 < m) by lra. assert (HM : 0 < M) by lra.
  assert (Hm0 : ~ m == 0) by lra. assert (HM0 : ~ M == 0) by lra.
  assert (HiM : 0 < / M) by now apply Qinv_lt_0_compat.
  assert (Him : 0 < / m) by now apply Qinv_lt_0_compat.
  assert (HiB : 0 < / Bm) by now apply Qinv_lt_0_compat.
  assert (HiM1 : / M <= 1).
  { apply Qle_shift_inv_r; lra. }
  assert (HiMB : / Bm <= / M).
  { apply Qle_shift_inv_l; [exact HM|]. 
    assert (E : / Bm * M == M / Bm) by (field; lra). rewrite E.
    apply Qle_shift_div_r; lra. }
  pose proof ulo_pos as Hul. pose proof uhi_pos as Huh.
  (* the ideal quantities *)
  assert (I1 : A <= m * V <= Bm * Cm).
  { split; [nra|]. apply Qle_trans with (Bm * V); [nra|].
    rewrite !(Qmult_comm Bm). apply Qmult_le_compat_r; lra. }
  assert (I2 : A * / Bm <= m * V * / M <= Bm * Cm).
  { split.
    - apply Qle_trans with (m * V * / Bm).
      + apply Qmult_le_compat_r; lra.
      + rewrite !(Qmult_comm (m * V)). apply Qmult_le_compat_r; lra.
    - apply Qle_trans with (m * V * 1); [|lra].
      rewrite !(Qmult_comm (m * V)). apply Qmult_le_compat_r; lra. }
  assert (I3 : / Bm <= V * / M <= 1).
  { split.
    - apply Qle_trans with (1 * / M); [lra|]. apply Qmult_le_compat_r; lra.
    - apply Qle_trans with (M * / M); [apply Qmult_le_compat_r; lra|].
      rewrite Qmult_inv_r; [apply Qle_refl | exact HM0]. }
  (* the first rounding: max * value *)
  cbn [B64.mul].
  destruct (within_fl (m * V) 1 1 (m * V)) as (p1 & E1 & W1); try lra.
  { split; lra. }
  { apply (range_lo A); [vm_compute; discriminate | lra | lra]. }
  { apply (range_hi (Bm * Cm)); [vm_compute; discriminate | lra | lra]. }
  rewrite E1.
  (* the second: / maxValue *)
  rewrite (B64_div_Fin p1 M HM0).
  assert (Hp1 : 0 < 1 * ulo) by lra.
  destruct (within_fl (m * V * / M) (1 * ulo) (1 * uhi) (p1 / M)) as (p2 & E2 & W2).
  { apply Qmult_lt_0_compat; [nra | exact HiM]. }
  { exact Hp1. }
  { apply within_scale; [lra | exact W1]. }
  { apply (range_lo (A * / Bm)); [vm_compute; discriminate | lra | lra]. }
  { apply (range_hi (Bm * Cm)); [vm_compute; discriminate | lra | lra]. }
  rewrite E2.
  (* the third: / max *)
  rewrite (B64_div_Fin p2 m Hm0).
  assert (Hp2 : 0 < 1 * ulo * ulo) by (apply Qmult_lt_0_compat; assumption).
  destruct (within_fl (V * / M) (1 * ulo * ulo) (1 * uhi * uhi) (p2 / m))
    as (p3 & E3 & W3).
  { apply Qmult_lt_0_compat; [lra | exact HiM]. }
  { exact Hp2. }
  { apply (within_comp (m * V * / M * / m)); [field; split; assumption|].
    apply within_scale; [lra | exact W2]. }
  { apply (range_lo (/ Bm)); [vm_compute; discriminate | lra | lra]. }
  { apply (range_hi 1); [vm_compute; discriminate | lra |].
    apply Qlt_le_weak. apply Qmult_lt_0_compat; lra. }
  rewrite E3.
  (* the fourth: * maxValue *)
  cbn [B64.mul].
  assert (Hp3 : 0 < 1 * ulo * ulo * ulo) by (apply Qmult_lt_0_compat; assumption).
  destruct (within_fl V (1 * ulo * ulo * ulo) (1 * uhi * uhi * uhi) (p3 * M))
    as (p4 & E4 & [W4lo W4hi]).
  { lra. }
  { exact Hp3. }
  { apply (within_comp (V * / M * M)); [field; exact HM0|].
    apply within_scale; [lra | exact W3]. }
  { apply (range_lo 1); [vm_compute; discriminate | lra | lra]. }
  { apply (range_hi Cm); [vm_compute; discriminate | lra |].
    apply Qlt_le_weak. repeat apply Qmult_lt_0_compat; lra. }
  rewrite E4. cbn [round].
  (* within 1/2 of the value *)
  set (a4 := 1 * ulo * ulo * ulo * ulo) in *.
  set (b4 := 1 * uhi * uhi * uhi * uhi) in *.
  assert (Ka : 0 <= 1 - a4) by (vm_compute; discriminate).
  assert (Kb : 0 <= b4 - 1) by (vm_compute; discriminate).
  assert (Ka' : Cm * (1 - a4) <= 1 # 2) by (vm_compute; discriminate).
  assert (Kb' : Cm * (b4 - 1) < 1 # 2) by (vm_compute; reflexivity).
  assert (La : V * (1 - a4) <= 1 # 2).
  { apply Qle_trans with (Cm * (1 - a4)); [|exact Ka'].
    now apply Qmult_le_compat_r. }
  assert (Lb : V * (b4 - 1) < 1 # 2).
  { apply Qle_lt_trans with (Cm * (b4 - 1)); [|exact Kb'].
    now apply Qmult_le_compat_r. }
  assert (Ea : V * a4 == V - V * (1 - a4)) by ring.
  assert (Eb : V * b4 == V + V * (b4 - 1)) by ring.
  rewrite Ea in W4lo. rewrite Eb in W4hi.
  set (ta := V * (1 - a4)) in *. set (tb := V * (b4 - 1)) in *.
  rewrite (Qround_near v p4); [reflexivity | fold V; lra | fold V; lra].
Qed.

(** ** Initialization in binary64 *)

(** C4, as the specification states it, fails in binary64 for a large
    value: with [maxValue] 1892381505733141 and the value
    1789916224229912, both doubles, on a travel of 1399, the offset that
    [initialize] computes maps back to the value plus one. *)
Lemma large_value_round_trip_fails :
  let M := 1892381505733141 in
  let v := 1789916224229912%Z in
  let w := Slider.mount B64.arith
             {| maxValue := Fin M; value := Fin (inject_Z v) |} 1431 32 in
  B64.fl M = Fin M /\ B64.fl (inject_Z v) = Fin (inject_Z v) /\
  0 <= inject_Z v <= M /\
  dd_max (dragData w) = Some (Fin 1399) /\
  left_state w = B64.div (B64.mul (Fin 1399) (Fin (inject_Z v))) (Fin M) /\
  round (B64.mul (B64.div (left_state w) (Fin 1399)) (Fin M)) = Fin (inject_Z (v + 1)).
Proof.
  split; [vm_compute; reflexivity|]. split; [vm_compute; reflexivity|].
  split; [split; discriminate|]. split; [vm_compute; reflexivity|].
  split; vm_compute; reflexivity.
Qed.

(** C4, amended.  In binary64, for an integer value between 0 and
    [maxValue] and below 2^50, a [maxValue] of 2^500 at most and a
    measured travel [max] between 2^-500 and 2^500, [initialize] places
    the thumb at [(max * value) / maxValue], the product and the
    quotient rounded to doubles, and [round((left / max) * maxValue)]
    of that offset, rounded likewise, is the value again. *)
Theorem initialize_round_trip_binary64 (M sliderWidth width m : Q) (v : Z) :
  B64.sub (Fin sliderWidth) (Fin width) = Fin m ->
  B64.pow2 (-500) <= m <= B64.pow2 500 ->
  0 < M <= B64.pow2 500 ->
  0 <= inject_Z v <= M -> (v < 2 ^ 50)%Z ->
  let w := Slider.mount B64.arith
             {| maxValue := Fin M; value := Fin (inject_Z v) |} sliderWidth width in
  let left := B64.div (B64.mul (Fin m) (Fin (inject_Z v))) (Fin M) in
  dd_max (dragData w) = Some (Fin m) /\
  dd_left (dragData w) = Some left /\
  left_state w = left /\
  round (B64.mul (B64.div left (Fin m)) (Fin M)) = Fin (inject_Z v).
Proof.
  intros Hsub Hm [HM1 HM2] [Hv0 HvM] Hv w left.
  assert (Hw : dd_max (dragData w) = Some (Fin m) /\
               dd_left (dragData w) = Some left /\ left_state w = left).
  { unfold w, left, Slider.mount, Slider.initialize.
    cbn [first_render store value maxValue Arith.sub Arith.mul Arith.div B64.arith].
    rewrite Hsub. repeat split. }
  destruct Hw as (W1 & W2 & W3). repeat split; try assumption.
  assert (Hz : (0 <= v)%Z) by (rewrite Zle_Qle; exact Hv0).
  assert (Hm0 : ~ m == 0).
  { pose proof (pow2_pos (-500)). destruct Hm. lra. }
  assert (HM0 : ~ M == 0) by lra.
  destruct (Z.eq_dec v 0) as [-> | Hne].
  - unfold left. cbn [B64.mul]. rewrite (fl_zero (m * inject_Z 0)) by (cbn; ring).
    rewrite (B64_div_Fin 0 M HM0), (fl_zero (0 / M)) by (field; exact HM0).
    rewrite (B64_div_Fin 0 m Hm0), (fl_zero (0 / m)) by (field; exact Hm0).
    cbn [B64.mul]. rewrite (fl_zero (0 * M)) by ring. reflexivity.
  - unfold left. apply round_trip_value; try assumption. lia.
Qed.

(** The scenario of the specification: value 50 of 100 on a track of
    width 320 with a thumb of width 32. *)
Lemma initialize_round_trip_binary64_witness :
  let w := Slider.mount B64.arith
             {| maxValue := Fin 100; value := Fin (inject_Z 50) |} 320 32 in
  let left := B64.div (B64.mul (Fin 288) (Fin (inject_Z 50))) (Fin 100) in
  dd_max (dragData w) = Some (Fin 288) /\
  dd_left (dragData w) = Some left /\
  left_state w = left /\
  round (B64.mul (B64.div left (Fin 288)) (Fin 100)) = Fin (inject_Z 50).
Proof.
  apply (initialize_round_trip_binary64 100 320 32 288 50).
  - vm_compute. reflexivity.
  - split; vm_compute; discriminate.
  - split; [reflexivity | vm_compute; discriminate].
  - split; discriminate.
  - reflexivity.
Defined.

(** ** Rounding keeps the order *)

Lemma fl_pos_nearest (a : Q) :
  B64.fl_pos a
  = if Qle_bool (B64.pow2 1024) (nearest a) then PInf else Fin (Qred (nearest a)).
Proof. reflexivity. Qed.

Lemma round_even_floor (q : Q) :
  (Qfloor q <= B64.round_even q <= Qfloor q + 1)%Z.
Proof.
  unfold B64.round_even.
  destruct (Qcompare (q - inject_Z (Qfloor q)) (1 # 2)); [|lia|lia].
  destruct (Z.even (Qfloor q)); lia.
Qed.

Lemma round_even_Z (z : Z) : B64.round_even (inject_Z z) = z.
Proof.
  unfold B64.round_even. rewrite Qfloor_Z.
  destruct (Qcompare_spec (inject_Z z - inject_Z z) (1 # 2)) as [E | E | E];
    [exfalso; lra | reflexivity | exfalso; lra].
Qed.

Lemma round_even_mono (x y : Q) :
  x <= y -> (B64.round_even x <= B64.round_even y)%Z.
Proof.
  intros H. pose proof (Qfloor_resp_le x y H) as Hf.
  destruct (Z.eq_dec (Qfloor x) (Qfloor y)) as [E | E].
  - unfold B64.round_even. rewrite E.
    destruct (Qcompare_spec (x - inject_Z (Qfloor y)) (1 # 2)) as [Ex | Ex | Ex];
      destruct (Qcompare_spec (y - inject_Z (Qfloor y)) (1 # 2)) as [Ey | Ey | Ey];
      try lia; try (exfalso; lra); destruct (Z.even (Qfloor y)); lia.
  - pose proof (round_even_floor x). pose proof (round_even_floor y). lia.
Qed.

Lemma ilog2_mono (a b : Q) : 0 < a -> a <= b -> (B64.ilog2 a <= B64.ilog2 b)%Z.
Proof.
  intros Ha Hab. destruct (ilog2_spec a Ha) as [A1 _].
  destruct (ilog2_spec b (Qlt_le_trans _ _ _ Ha Hab)) as [_ B2].
  assert (H : (B64.ilog2 a < B64.ilog2 b + 1)%Z) by (apply pow2_lt_inv; lra).
  lia.
Qed.

(** The double before the check for overflow grows with the number. *)
Lemma nearest_mono (a b : Q) : 0 < a -> a <= b -> nearest a <= nearest b.
Proof.
  intros Ha Hab. assert (Hb : 0 < b) by lra.
  pose proof (ilog2_mono a b Ha Hab) as HL.
  destruct (ilog2_spec a Ha) as [A1 A2]. destruct (ilog2_spec b Hb) as [B1 B2].
  unfold nearest, exponent.
  set (La := B64.ilog2 a) in *. set (Lb := B64.ilog2 b) in *.
  set (ea := Z.max (La - 52) (-1074)). set (eb := Z.max (Lb - 52) (-1074)).
  pose proof (pow2_pos ea) as Hea. pose proof (pow2_pos eb) as Heb.
  destruct (Z.eq_dec ea eb) as [E | E].
  - rewrite <- E. apply Qmult_le_compat_r; [|lra].
    rewrite <- Zle_Qle. apply round_even_mono.
    unfold Qdiv. apply Qmult_le_compat_r; [exact Hab|].
    apply Qlt_le_weak. now apply Qinv_lt_0_compat.
  - assert (Heb' : eb = (Lb - 52)%Z) by lia. assert (Hlt : (La < Lb)%Z) by lia.
    assert (Hk : (0 <= Lb - ea)%Z) by lia.
    apply Qle_trans with (B64.pow2 Lb).
    + assert (Ek : B64.pow2 Lb == inject_Z (2 ^ (Lb - ea)) * B64.pow2 ea).
      { rewrite (pow2_Z _ Hk), <- pow2_plus.
        now replace (Lb - ea + ea)%Z with Lb by ring. }
      rewrite Ek. apply Qmult_le_compat_r; [|lra].
      rewrite <- Zle_Qle. rewrite <- (round_even_Z (2 ^ (Lb - ea))).
      apply round_even_mono. apply Qle_shift_div_r; [exact Hea|].
      rewrite <- Ek. apply Qlt_le_weak. apply Qlt_le_trans with (B64.pow2 (La + 1)); [exact A2|].
      apply pow2_le. lia.
    + assert (Ek : B64.pow2 Lb == inject_Z (2 ^ 52) * B64.pow2 eb).
      { rewrite (pow2_Z 52) by lia. rewrite <- pow2_plus, Heb'.
        now replace (52 + (Lb - 52))%Z with Lb by ring. }
      rewrite Ek. apply Qmult_le_compat_r; [|lra].
      rewrite <- Zle_Qle. rewrite <- (round_even_Z (2 ^ 52)).
      apply round_even_mono. apply Qle_shift_div_l; [exact Heb|].
      rewrite <- Ek. exact B1.
Qed.

Lemma nearest_nonneg (a : Q) : 0 < a -> 0 <= nearest a.
Proof.
  intros Ha. unfold nearest. apply Qmult_le_0_compat.
  - change 0 with (inject_Z 0). rewrite <- Zle_Qle.
    rewrite <- (round_even_Z 0). apply round_even_mono.
    apply Qle_shift_div_l; [apply pow2_pos | change (inject_Z 0) with 0; lra].
  - apply Qlt_le_weak. apply pow2_pos.
Qed.

(** Rounding does not cross a double: a number between 0 and the double
    [B] rounds to a double between 0 and [B]. *)
Lemma fl_bounded (q B : Q) :
  0 <= q <= B -> B64.fl B = Fin B ->
  exists y, B64.fl q = Fin y /\ 0 <= y <= B.
Proof.
  intros [Hq HqB] HB.
  destruct (Qlt_le_dec 0 q) as [Hpos | Hneg].
  2: { exists 0. split; [apply fl_zero; lra | lra]. }
  assert (HBpos : 0 < B) by lra.
  assert (Hq' : 0 < Qred q) by now rewrite Qred_correct.
  assert (HB' : 0 < Qred B) by now rewrite Qred_correct.
  unfold B64.fl in HB |- *.
  rewrite (proj1 (Qgt_alt _ _) HB'), fl_pos_nearest in HB.
  rewrite (proj1 (Qgt_alt _ _) Hq'), fl_pos_nearest.
  destruct (Qle_bool (B64.pow2 1024) (nearest (Qred B))) eqn:EB; [discriminate|].
  apply (f_equal (fun n => match n with Fin y => y | _ => 0 end)) in HB.
  cbv beta iota in HB.
  assert (HnB : nearest (Qred B) == B).
  { rewrite <- (Qred_correct (nearest (Qred B))). rewrite HB. reflexivity. }
  assert (Hover : nearest (Qred B) < B64.pow2 1024).
  { apply Qnot_le_lt. intros H. apply Qle_bool_iff in H. congruence. }
  assert (Hmono : nearest (Qred q) <= nearest (Qred B)).
  { apply nearest_mono; [exact Hq' | now rewrite !Qred_correct]. }
  destruct (Qle_bool (B64.pow2 1024) (nearest (Qred q))) eqn:Eq.
  - apply Qle_bool_iff in Eq. exfalso. lra.
  - exists (Qred (nearest (Qred q))). split; [reflexivity|].
    rewrite Qred_correct. split; [now apply nearest_nonneg | lra].
Qed.

(** ** The range of the stored value in binary64 *)

Lemma B64_div_not_NaN (a : num) (M : Q) :
  a <> NaN -> 0 < M -> B64.div a (Fin M) <> NaN.
Proof.
  intros Ha HM. destruct a as [x | | |]; [| | |contradiction].
  - rewrite B64_div_Fin by lra. apply fl_not_NaN.
  - cbn. now destruct (Qle_bool 0 M).
  - cbn. now destruct (Qle_bool 0 M).
Qed.

Lemma B64_sub_not_NaN (t : num) (x : Q) : t <> NaN -> B64.sub t (Fin x) <> NaN.
Proof.
  intros Ht. destruct t as [y | | |]; [| | |contradiction]; cbn; try discriminate.
  apply fl_not_NaN.
Qed.

Lemma B64_add_not_NaN (x : Q) (o : num) : o <> NaN -> B64.add (Fin x) o <> NaN.
Proof.
  intros Ho. destruct o as [y | | |]; [| | |contradiction]; cbn; try discriminate.
  apply fl_not_NaN.
Qed.

(** The value of a clamped offset is an integer from 0 to [maxValue]. *)
Lemma value_binary64_range (Mz : Z) (n m : Q) :
  0 < m -> 0 <= n <= m -> (0 < Mz)%Z ->
  B64.fl (inject_Z Mz) = Fin (inject_Z Mz) ->
  exists z, round (B64.mul (B64.div (Fin n) (Fin m)) (Fin (inject_Z Mz)))
            = Fin (inject_Z z) /\ (0 <= z <= Mz)%Z.
Proof.
  intros Hm [Hn0 Hnm] HMz HM.
  assert (HMq : 0 < inject_Z Mz) by (change 0 with (inject_Z 0); now rewrite <- Zlt_Qlt).
  rewrite B64_div_Fin by lra.
  destruct (fl_bounded (n / m) 1) as (a & Ea & Ha0 & Ha1).
  { split; [apply Qle_shift_div_l; lra | apply Qle_shift_div_r; lra]. }
  { reflexivity. }
  rewrite Ea. cbn [B64.mul].
  destruct (fl_bounded (a * inject_Z Mz) (inject_Z Mz)) as (b & Eb & Hb0 & Hb1).
  { split; [apply Qmult_le_0_compat; lra|].
    apply Qle_trans with (1 * inject_Z Mz); [apply Qmult_le_compat_r; lra | lra]. }
  { exact HM. }
  rewrite Eb. cbn [round]. exists (Qround b). split; [reflexivity|]. split.
  - rewrite <- (Qround_inject_Z 0). now apply Qround_le.
  - apply Z.le_trans with (Qround (inject_Z Mz)); [now apply Qround_le|].
    rewrite Qround_inject_Z. apply Z.le_refl.
Qed.

Section Binary64.

Variables (Mz : Z) (m : Q).
Hypothesis HMz : (0 < Mz)%Z.
Hypothesis HM : B64.fl (inject_Z Mz) = Fin (inject_Z Mz).
Hypothesis Hm : 0 < m.

Lemma maxValue_positive : 0 < inject_Z Mz.
Proof. change 0 with (inject_Z 0). now rewrite <- Zlt_Qlt. Qed.

Lemma Ranged_mount (v sliderWidth width : Q) :
  0 <= v <= inject_Z Mz ->
  B64.sub (Fin sliderWidth) (Fin width) = Fin m ->
  Ranged (inject_Z Mz) m
         (Slider.mount B64.arith
            {| maxValue := Fin (inject_Z Mz); value := Fin v |} sliderWidth width).
Proof.
  intros Hv Hsub. unfold Slider.mount, Slider.initialize.
  cbn [first_render store value maxValue Arith.sub Arith.mul Arith.div B64.arith].
  rewrite Hsub. constructor; cbn [store dragData dd_max dd_left dd_offset mousemove
                                        writes maxValue value setLeft set_dragData
                                        app emitted first_render].
  - reflexivity.
  - now exists v.
  - reflexivity.
  - eexists. split; [reflexivity|]. apply B64_div_not_NaN; [|exact maxValue_positive].
    cbn [B64.mul]. apply fl_not_NaN.
  - now right.
  - constructor.
  - constructor.
Qed.

Lemma Ranged_drag (x : Q) (o : num) (w : World) :
  Ranged (inject_Z Mz) m w ->
  dd_offset (dragData w) = Some o -> o <> NaN ->
  Ranged (inject_Z Mz) m (Slider.drag B64.arith (Fin (inject_Z Mz)) x w) /\
  dd_offset (dragData (Slider.drag B64.arith (Fin (inject_Z Mz)) x w)) = Some o /\
  mousemove (Slider.drag B64.arith (Fin (inject_Z Mz)) x w) = mousemove w /\
  mouseup (Slider.drag B64.arith (Fin (inject_Z Mz)) x w) = mouseup w.
Proof.
  intros HR Ho HoN. pose proof HR as [R1 R2 R3 (t & R4 & R4') R5 R6 R7].
  destruct (clamp_rounded m (B64.add (Fin x) o) (Qlt_le_weak _ _ Hm)
                          (B64_add_not_NaN x o HoN)) as (n & Hn & Hb & _).
  unfold Slider.drag. rewrite R3, Ho.
  cbn [to_num Arith.add Arith.mul Arith.div B64.arith]. rewrite Hn.
  destruct (strict_neq (dd_left (dragData w)) (Fin n));
    [|split; [exact HR | now repeat split]].
  destruct (value_binary64_range Mz n m Hm Hb HMz HM) as (z & Ez & Hz).
  rewrite Ez. split; [|repeat split].
  constructor; cbn.
  - exact R1.
  - exists (inject_Z z). split; [reflexivity|]. rewrite <- !Zle_Qle.
    change 0 with (inject_Z 0). rewrite <- Zle_Qle. lia.
  - reflexivity.
  - eexists. split; [reflexivity|]. apply B64_div_not_NaN; [|exact maxValue_positive].
    apply fl_not_NaN.
  - left. now exists o.
  - exact R6.
  - rewrite !emitted_app. cbn. rewrite app_nil_r. apply Forall_app. split; [exact R7|].
    constructor; [|constructor]. exists (inject_Z z). split; [reflexivity|].
    rewrite <- !Zle_Qle. change 0 with (inject_Z 0). rewrite <- Zle_Qle. lia.
Qed.

Lemma Ranged_dispatch (e : Event) (w : World) :
  Ranged (inject_Z Mz) m w -> Ranged (inject_Z Mz) m (Slider.dispatch B64.arith e w).
Proof.
  intros HR. destruct e as [x | x |]; cbn [Slider.dispatch].
  - destruct HR as [R1 R2 R3 (t & R4 & R4') R5 R6 R7].
    unfold Slider.startDrag. constructor; cbn.
    + exact R1.
    + exact R2.
    + exact R3.
    + now exists t.
    + left. eexists. split; [reflexivity|]. rewrite R4. cbn [to_num].
      now apply B64_sub_not_NaN.
    + apply Forall_app. split; [exact R6 | now repeat constructor].
    + exact R7.
  - destruct (ranged_offset _ _ _ HR) as [(o & Ho & HoN) | Hnil].
    2: { now rewrite Hnil. }
    assert (H : forall cs w0,
               Forall (fun c => captured_maxValue c = Fin (inject_Z Mz)) cs ->
               Ranged (inject_Z Mz) m w0 -> dd_offset (dragData w0) = Some o ->
               Ranged (inject_Z Mz) m
                      (fold_left (fun w c => Slider.drag B64.arith (captured_maxValue c) x w)
                                 cs w0)).
    { intros cs w0 Hcs. revert w0.
      induction Hcs as [|c cs Hc Hcs IH]; intros w0 HR0 Ho0; [exact HR0|].
      cbn [fold_left]. rewrite Hc.
      destruct (Ranged_drag x o w0 HR0 Ho0 HoN) as (HR' & Ho' & _).
      now apply IH. }
    apply H; [exact (ranged_closures _ _ _ HR) | exact HR | exact Ho].
  - rewrite fold_drop. destruct HR as [R1 R2 R3 R4 R5 R6 R7]. constructor; cbn; auto.
    + destruct R5 as [R5 | ->]; [now left | right; apply remaining_nil].
    + now apply Forall_remaining.
Qed.

Lemma Ranged_run (es : list Event) (w : World) :
  Ranged (inject_Z Mz) m w -> Ranged (inject_Z Mz) m (Slider.run B64.arith es w).
Proof.
  revert w. induction es as [|e es IH]; intros w HR; [exact HR|].
  cbn [Slider.run fold_left]. apply IH. now apply Ranged_dispatch.
Qed.

End Binary64.

(** C2, amended.  In binary64, with a positive integer [maxValue] that
    is a double, an initial value in range and a positive measured
    travel, the store satisfies [0 <= value <= maxValue] when it is
    created and after every sequence of pointer events, and every value
    that [drag] passed to [setValue] on the way is in that range;
    [maxValue] is unchanged. *)
Theorem value_in_range_binary64
    (Mz : Z) (v sliderWidth width m : Q) (es : list Event) :
  (0 < Mz)%Z -> B64.fl (inject_Z Mz) = Fin (inject_Z Mz) ->
  0 <= v <= inject_Z Mz ->
  B64.sub (Fin sliderWidth) (Fin width) = Fin m -> 0 < m ->
  let s := {| maxValue := Fin (inject_Z Mz); value := Fin v |} in
  let w := Slider.run B64.arith es (Slider.mount B64.arith s sliderWidth width) in
  in_range (inject_Z Mz) (value s) /\
  maxValue (store w) = maxValue s /\
  in_range (inject_Z Mz) (value (store w)) /\
  Forall (in_range (inject_Z Mz)) (emitted (writes w)).
Proof.
  intros HMz HM Hv Hsub Hm s w.
  assert (HR : Ranged (inject_Z Mz) m w).
  { apply Ranged_run; try assumption. now apply Ranged_mount. }
  split; [now exists v|]. split; [exact (ranged_maxValue _ _ _ HR)|].
  split; [exact (ranged_value _ _ _ HR) | exact (ranged_emitted _ _ _ HR)].
Qed.

(** The store of the application in binary64, on the scenario slider,
    after a drag beyond the right end of the track and back. *)
Lemma value_in_range_binary64_witness :
  let w := Slider.run B64.arith [MouseDown 200; MouseMove 400; MouseMove 29; MouseUp]
                      (Slider.App B64.arith 320 32) in
  in_range 100 (value SliderProvider) /\
  maxValue (store w) = maxValue SliderProvider /\
  in_range 100 (value (store w)) /\
  Forall (in_range 100) (emitted (writes w)).
Proof.
  apply (value_in_range_binary64 100 50 320 32 288
           [MouseDown 200; MouseMove 400; MouseMove 29; MouseUp]).
  - reflexivity.
  - vm_compute. reflexivity.
  - split; discriminate.
  - vm_compute. reflexivity.
  - reflexivity.
Defined.
